(** * MessageCollector (src/service/message.ts)

    A shallow embedding of the per-group message collector: the content
    normaliser [mapElementToString], the group store with its polling lock,
    the mute window and the filter-gated dispatch of [broadcast]. *)

From Stdlib Require Import ZArith NArith Ascii String.
From stdpp Require Import base option list gmap.

Local Open Scope Z_scope.

(** ** JavaScript strings

    A JavaScript string is a sequence of UTF-16 code units; [.length] counts
    code units, [+] and template literals concatenate them. *)

Abbreviation jsstring := (list N).

(** A literal of the source text, as code units (ASCII only). *)
Definition lit (s : string) : jsstring :=
  map N_of_ascii (list_ascii_of_string s).

(** ECMAScript WhiteSpace and LineTerminator code points, the ones
    [String.prototype.trimEnd] strips: TAB, LF, VT, FF, CR, SP, NBSP,
    U+1680, U+2000..U+200A, U+2028, U+2029, U+202F, U+205F, U+3000, U+FEFF. *)
Definition isWhiteSpace (c : N) : bool :=
  ((9 <=? c) && (c <=? 13) || (c =? 32) || (c =? 160) || (c =? 5760)
   || (8192 <=? c) && (c <=? 8202) || (c =? 8232) || (c =? 8233)
   || (c =? 8239) || (c =? 8287) || (c =? 12288) || (c =? 65279))%N.

(** [s.trimEnd()] *)
Fixpoint trimEnd (s : jsstring) : jsstring :=
  match s with
  | [] => []
  | c :: r =>
      match trimEnd r with
      | [] => if isWhiteSpace c then [] else [c]
      | r' => c :: r'
      end
  end.

(** [a ?? b] with [undefined] as [None]; [a ?? b ?? c] picks the first
    defined operand whichever way it is bracketed. *)
Definition nullish {A} (a : option A) (b : A) : A :=
  match a with Some v => v | None => b end.

Infix "??" := nullish (at level 45, right associativity).

(** [`${v}`] for a value that is a string or [undefined]. *)
Definition template (v : option jsstring) : jsstring :=
  match v with Some s => s | None => lit "undefined" end.

(** [array.join('')] *)
Definition join (parts : list jsstring) : jsstring := concat parts.

(** ** The host's data (koishi [h] elements and [Session]) *)

Module Attrs.
Record t := mk {
  content : jsstring;        (* [attrs.content as string] *)
  id : option jsstring;
  name : option jsstring
}.
End Attrs.

Module h.
Record t := mk { type : jsstring; attrs : Attrs.t }.

(** [h.text(content)] *)
Definition text (content : jsstring) : t :=
  mk (lit "text") (Attrs.mk content None None).

(** [h.at(id, { name })] *)
Definition at_ (id name : option jsstring) : t :=
  mk (lit "at") (Attrs.mk [] id name).
End h.

Module Bot.
Record t := mk {
  username : option jsstring;
  userId : option jsstring;
  selfId : option jsstring
}.
End Bot.

Module Author.
Record t := mk { username : option jsstring; userId : option jsstring }.
End Author.

Module Quote.
Record t := mk {
  content : jsstring;
  elements : list h.t;
  author : Author.t
}.
End Quote.

Module Session.
Record t := mk {
  isDirect : bool;
  guildId : jsstring;
  content : jsstring;
  elements : option (list h.t);
  author : Author.t;
  quote : option Quote.t;
  bot : Bot.t
}.
End Session.

(** ** The content normaliser *)

(** One iteration of the [for (const element of elements)] loop. *)
Definition mapElement (session : Session.t) (filteredBuffer : list jsstring)
    (element : h.t) : list jsstring :=
  if decide (h.type element = lit "text") then
    let content := Attrs.content (h.attrs element) in
    if (length (trimEnd content) <? 1)%nat then filteredBuffer
    else filteredBuffer ++ [content]
  else if decide (h.type element = lit "at") then
    let name := Attrs.name (h.attrs element) in
    let name :=
      if decide (Attrs.id (h.attrs element) = Bot.selfId (Session.bot session))
      then Some (name ?? Bot.username (Session.bot session) ?? lit "0")
      else name in
    let name :=
      match name with
      | None => Attrs.id (h.attrs element) ?? lit "0"
      | Some n => n
      end in
    filteredBuffer ++
      [lit "(" ++ name ++ lit "-" ++ template (Attrs.id (h.attrs element))
         ++ lit "-<at>)"]
  else filteredBuffer.

Definition mapElementToString (session : Session.t) (content : jsstring)
    (elements : list h.t) : jsstring :=
  if (length (trimEnd content) <? 1)%nat then []
  else join (foldl (mapElement session) [] elements).

(** ** The collector's own data *)

(** Modelled from the spec: [Message] is declared in ../types, which is not
    among the sources. Its fields are the ones the object literals of lines
    139-143 and 182-197 fill in, and the ones the spec lists: content, name,
    id and an optional quote of the same shape without a quote of its own.
    An [undefined] taken from the session stays [None]. *)
Module QuoteMessage.
Record t := mk {
  content : jsstring;
  name : option jsstring;
  id : option jsstring
}.
End QuoteMessage.

Module Message.
Record t := mk {
  content : jsstring;
  name : option jsstring;
  id : option jsstring;
  quote : option QuoteMessage.t
}.
End Message.

Module GroupLock.
Record t := mk { lock : bool; mute : Z }.
End GroupLock.

(** Modelled from the spec: [GroupTemp] is declared in ../types, which is
    not among the sources; the spec gives it "at minimum, a list of
    completion messages", and the default built by [getTemp] has exactly
    that field. *)
Module GroupTemp.
Record t := mk { completionMessages : list jsstring }.
End GroupTemp.

(** Modelled from the spec: [Config] is declared in the plugin's index,
    which is not among the sources; the collector reads one field of it, "a
    single numeric option, maximum buffered messages per group". It is a
    JavaScript number: integral values are modelled, negative ones
    included. Timestamps and durations are integral numbers too. *)
Module Config.
Record t := mk { maxMessages : Z }.
End Config.

Definition MessageCollectorFilter : Type := Session.t -> Message.t -> bool.

(** What a call [func(session, messages)] of a 'collect' listener does: it
    hands back a promise, which settles later on (fulfilled or rejected), or
    it throws before returning. Listeners are observers here: they do not
    write to the collector. *)
Inductive ListenerResult :=
  | ReturnsPromise (rejects : bool)
  | ThrowsError.

Definition Listener : Type := Session.t -> list Message.t -> ListenerResult.

Record MessageCollector := mkCollector {
  _messages : gmap jsstring (list Message.t);
  _eventEmitter : list Listener;     (* listeners of 'collect', in order *)
  _filters : list MessageCollectorFilter;
  _groupLocks : gmap jsstring GroupLock.t;
  _groupTemp : gmap jsstring GroupTemp.t;
  _config : Config.t
}.

(** [new MessageCollector(config)] *)
Definition new (config : Config.t) : MessageCollector :=
  mkCollector ∅ [] [] ∅ ∅ config.

Definition set_messages (f : gmap jsstring (list Message.t) -> gmap jsstring (list Message.t))
    (c : MessageCollector) : MessageCollector :=
  mkCollector (f (_messages c)) (_eventEmitter c) (_filters c)
    (_groupLocks c) (_groupTemp c) (_config c).

Definition set_groupLocks (f : gmap jsstring GroupLock.t -> gmap jsstring GroupLock.t)
    (c : MessageCollector) : MessageCollector :=
  mkCollector (_messages c) (_eventEmitter c) (_filters c)
    (f (_groupLocks c)) (_groupTemp c) (_config c).

Definition set_groupTemp (f : gmap jsstring GroupTemp.t -> gmap jsstring GroupTemp.t)
    (c : MessageCollector) : MessageCollector :=
  mkCollector (_messages c) (_eventEmitter c) (_filters c)
    (_groupLocks c) (f (_groupTemp c)) (_config c).

(** What the collector does that a caller, a filter or a listener can see,
    in the order it happens. *)
Inductive Event :=
  | Pushed (groupId : jsstring) (message : Message.t)
  | Cleared (groupId : option jsstring)
  | FilterCalled (i : nat) (session : Session.t) (message : Message.t)
  | Emitted (session : Session.t) (messages : list Message.t)
  | ListenerCalled (i : nat) (session : Session.t) (messages : list Message.t).

(** ** Synchronous methods *)

Definition addFilter (filter : MessageCollectorFilter) (c : MessageCollector)
    : MessageCollector :=
  mkCollector (_messages c) (_eventEmitter c) (_filters c ++ [filter])
    (_groupLocks c) (_groupTemp c) (_config c).

Definition collect (func : Listener) (c : MessageCollector) : MessageCollector :=
  mkCollector (_messages c) (_eventEmitter c ++ [func]) (_filters c)
    (_groupLocks c) (_groupTemp c) (_config c).

Definition getMessages (groupId : jsstring) (c : MessageCollector)
    : option (list Message.t) :=
  _messages c !! groupId.

(** The lock record of a group is created on first use and never replaced,
    so the object a closure captured is the one the table holds. *)
Definition _getGroupLocks (groupId : jsstring) (c : MessageCollector)
    : GroupLock.t * MessageCollector :=
  match _groupLocks c !! groupId with
  | Some groupLock => (groupLock, c)
  | None =>
      let fresh := GroupLock.mk false 0 in
      (fresh, set_groupLocks <[groupId := fresh]> c)
  end.

(** [new Date().getTime()] is read twice in [mute]: [now1] in the test,
    [now2] in the first branch. [lock.mute] is always a number, so the
    [?? 0] of line 25 never applies. *)
Definition mute (session : Session.t) (time now1 now2 : Z) (c : MessageCollector)
    : MessageCollector :=
  let '(lock, c) := _getGroupLocks (Session.guildId session) c in
  let mute := GroupLock.mute lock in
  let mute := if mute <? now1 then now2 + time else mute + time in
  set_groupLocks <[Session.guildId session := GroupLock.mk (GroupLock.lock lock) mute]> c.

Definition isMute (session : Session.t) (now : Z) (c : MessageCollector)
    : bool * MessageCollector :=
  let '(lock, c) := _getGroupLocks (Session.guildId session) c in
  (GroupLock.mute lock >? now, c).

(** [if (groupId)]: a missing argument and the empty string are both falsy. *)
Definition clear (groupId : option jsstring) (c : MessageCollector)
    : MessageCollector :=
  match groupId with
  | Some (ch :: rest) => set_messages <[ch :: rest := []]> c
  | _ => set_messages (fun _ => ∅) c
  end.

(** ** Asynchronous methods

    The runtime is single-threaded: code between two [await]s runs without
    interruption. An async method is a chain of such synchronous sections,
    separated by the two suspension points of this file, [await
    this._lock(session)] and [await this._unlock(session)]. *)

(** How a synchronous section ends: it reaches the next [await] or the
    [return] ([Next]), it throws and nothing catches ([Throws]: the method's
    promise rejects), or it never ends ([Hangs]). *)
Inductive SyncResult (K : Type) :=
  | Next (c : MessageCollector) (trace : list Event) (k : K)
  | Throws (c : MessageCollector) (trace : list Event)
  | Hangs.

Arguments Next {K} c trace k.
Arguments Throws {K} c trace.
Arguments Hangs {K}.

(** The value an async method of the collector resolves to: [undefined], or
    the temp data for [getTemp]. *)
Abbreviation Result := (option GroupTemp.t).

#[local] Unset Elimination Schemes.
Inductive Async :=
  | Return (r : Result)
  | Await_lock (session : Session.t) (k : Async)
  | Await_unlock (session : Session.t) (k : Async)
  | Do (section : Z -> MessageCollector -> SyncResult Async).
#[local] Set Elimination Schemes.

(** [groupArray.shift()]; on an empty array it removes nothing. *)
Definition shift (groupArray : list Message.t) : list Message.t :=
  tail groupArray.

(** [while (groupArray.length > maxMessageSize) groupArray.shift()].
    [None] when the loop is still running after [fuel] iterations. *)
Fixpoint shift_while (fuel : nat) (maxMessageSize : Z)
    (groupArray : list Message.t) : option (list Message.t) :=
  if Z.of_nat (length groupArray) >? maxMessageSize then
    match fuel with
    | O => None
    | S fuel => shift_while fuel maxMessageSize (shift groupArray)
    end
  else Some groupArray.

(** The eviction of lines 147-151 and 201-205. The loop removes one entry
    per iteration until the array is empty, so [length groupArray]
    iterations decide it: if the test still holds then, the array is empty,
    [shift] changes nothing and the loop runs forever. *)
Definition evict (maxMessageSize : Z) (groupArray : list Message.t)
    : option (list Message.t) :=
  if Z.of_nat (length groupArray) >? maxMessageSize
  then shift_while (length groupArray) maxMessageSize groupArray
  else Some groupArray.

(** [this._filters.some((func) => func(session, message))]: the filters are
    called in order up to the first that answers true. *)
Fixpoint some_from (i : nat) (filters : list MessageCollectorFilter)
    (session : Session.t) (message : Message.t) : bool * list Event :=
  match filters with
  | [] => (false, [])
  | func :: rest =>
      if func session message then (true, [FilterCalled i session message])
      else
        let '(found, trace) := some_from (S i) rest session message in
        (found, FilterCalled i session message :: trace)
  end.

Definition some (filters : list MessageCollectorFilter) (session : Session.t)
    (message : Message.t) : bool * list Event :=
  some_from 0 filters session message.

(** [this._eventEmitter.emit('collect', session, groupArray)] (Node's
    [events]): the listeners are called one after the other with the same
    arguments; the promise a listener returns is dropped; an exception a
    listener throws leaves [emit] at once, the listeners after it uncalled.
    The boolean tells whether [emit] threw. *)
Fixpoint emit_from (i : nat) (listeners : list Listener) (session : Session.t)
    (messages : list Message.t) : bool * list Event :=
  match listeners with
  | [] => (false, [])
  | func :: rest =>
      match func session messages with
      | ThrowsError => (true, [ListenerCalled i session messages])
      | ReturnsPromise _ =>
          let '(threw, trace) := emit_from (S i) rest session messages in
          (threw, ListenerCalled i session messages :: trace)
      end
  end.

Definition emit (listeners : list Listener) (session : Session.t)
    (messages : list Message.t) : bool * list Event :=
  let '(threw, trace) := emit_from 0 listeners session messages in
  (threw, Emitted session messages :: trace).

(** Lines 171-175: the elements [broadcast] normalises. *)
Definition incomingElements (session : Session.t) : list h.t :=
  match Session.elements session with
  | Some e => e
  | None => [h.text (Session.content session)]
  end.

(** Lines 182-197: the message [broadcast] builds. *)
Definition incomingMessage (session : Session.t) (content : jsstring)
    : Message.t :=
  Message.mk content
    (Author.username (Session.author session))
    (Author.userId (Session.author session))
    match Session.quote session with
    | Some quote =>
        Some (QuoteMessage.mk
                (mapElementToString session (Quote.content quote)
                   (Quote.elements quote))
                (Author.username (Quote.author quote))
                (Author.userId (Quote.author quote)))
    | None => None
    end.

(** Lines 139-143: the message [broadcastOnBot] builds. *)
Definition outgoingMessage (session : Session.t) (content : jsstring)
    : Message.t :=
  Message.mk content
    (Bot.username (Session.bot session))
    (Some (Bot.userId (Session.bot session)
             ?? Bot.selfId (Session.bot session) ?? lit "0"))
    None.

(** Lines 165-216: [broadcast] between its two [await]s. *)
Definition broadcast_section (session : Session.t) (now : Z)
    (c : MessageCollector) : SyncResult Async :=
  let groupId := Session.guildId session in
  let maxMessageSize := Config.maxMessages (_config c) in
  let groupArray :=
    match _messages c !! groupId with Some a => a | None => [] end in
  let elements := incomingElements session in
  let content := mapElementToString session (Session.content session) elements in
  if (length content <? 1)%nat then
    Next c [] (Await_unlock session (Return None))
  else
    let message := incomingMessage session content in
    let groupArray := groupArray ++ [message] in
    match evict maxMessageSize groupArray with
    | None => Hangs
    | Some groupArray =>
        let c := set_messages <[groupId := groupArray]> c in
        let '(matched, calls) := some (_filters c) session message in
        if matched then
          let '(muted, c) := isMute session now c in
          if negb muted then
            let '(threw, deliveries) := emit (_eventEmitter c) session groupArray in
            let trace := Pushed groupId message :: calls ++ deliveries in
            if threw then Throws c trace
            else Next c trace (Await_unlock session (Return None))
          else
            Next c (Pushed groupId message :: calls)
              (Await_unlock session (Return None))
        else
          Next c (Pushed groupId message :: calls)
            (Await_unlock session (Return None))
    end.

Definition broadcast (session : Session.t) : Async :=
  if Session.isDirect session then Return None
  else Await_lock session (Do (broadcast_section session)).

(** Lines 126-155: [broadcastOnBot] between its two [await]s. *)
Definition broadcastOnBot_section (session : Session.t) (elements : list h.t)
    (now : Z) (c : MessageCollector) : SyncResult Async :=
  let groupId := Session.guildId session in
  let maxMessageSize := Config.maxMessages (_config c) in
  let groupArray :=
    match _messages c !! groupId with Some a => a | None => [] end in
  let content := mapElementToString session (Session.content session) elements in
  if (length content <? 1)%nat then
    Next c [] (Await_unlock session (Return None))
  else
    let message := outgoingMessage session content in
    let groupArray := groupArray ++ [message] in
    match evict maxMessageSize groupArray with
    | None => Hangs
    | Some groupArray =>
        let c := set_messages <[groupId := groupArray]> c in
        Next c [Pushed groupId message] (Await_unlock session (Return None))
    end.

Definition broadcastOnBot (session : Session.t) (elements : list h.t) : Async :=
  if Session.isDirect session then Return None
  else Await_lock session (Do (broadcastOnBot_section session elements)).

(** Lines 52-54: [updateTemp] between its two [await]s. *)
Definition updateTemp_section (session : Session.t) (temp : GroupTemp.t)
    (now : Z) (c : MessageCollector) : SyncResult Async :=
  let groupId := Session.guildId session in
  let c := set_groupTemp <[groupId := temp]> c in
  Next c [] (Await_unlock session (Return None)).

Definition updateTemp (session : Session.t) (temp : GroupTemp.t) : Async :=
  Await_lock session (Do (updateTemp_section session temp)).

(** Lines 62-72: [getTemp] between its two [await]s. *)
Definition getTemp_section (session : Session.t) (now : Z)
    (c : MessageCollector) : SyncResult Async :=
  let groupId := Session.guildId session in
  let temp := _groupTemp c !! groupId ?? GroupTemp.mk [] in
  let c := set_groupTemp <[groupId := temp]> c in
  Next c [] (Await_unlock session (Return (Some temp))).

Definition getTemp (session : Session.t) : Async :=
  Await_lock session (Do (getTemp_section session)).

(** ** Running async methods

    A call of an async method is a task. Started, it runs up to its first
    [await]; from then on it moves only when the interval timer it waits on
    fires. *)

Inductive Task :=
  | Polling_lock (groupId : jsstring) (k : Async)     (* inside [_lock] *)
  | Polling_unlock (groupId : jsstring) (k : Async)   (* inside [_unlock] *)
  | Fulfilled (r : Result)
  | Rejected.

Definition lockFlag (groupId : jsstring) (c : MessageCollector) : bool :=
  match _groupLocks c !! groupId with
  | Some groupLock => GroupLock.lock groupLock
  | None => false
  end.

Definition muteUntil (groupId : jsstring) (c : MessageCollector) : Z :=
  match _groupLocks c !! groupId with
  | Some groupLock => GroupLock.mute groupLock
  | None => 0
  end.

(** [groupLock.lock = b] on the record of [groupId]. *)
Definition setLockFlag (groupId : jsstring) (b : bool) (c : MessageCollector)
    : MessageCollector :=
  set_groupLocks
    (alter (fun groupLock => GroupLock.mk b (GroupLock.mute groupLock)) groupId) c.

(** Run a method body up to its next suspension. [_lock] and [_unlock] look
    the lock record up (creating it) and start their timer before they
    suspend. [None]: a synchronous section hangs, and the process with it. *)
Fixpoint advance (now : Z) (prog : Async) (c : MessageCollector)
    : option (MessageCollector * list Event * Task) :=
  match prog with
  | Return r => Some (c, [], Fulfilled r)
  | Await_lock session k =>
      let '(_, c) := _getGroupLocks (Session.guildId session) c in
      Some (c, [], Polling_lock (Session.guildId session) k)
  | Await_unlock session k =>
      let '(_, c) := _getGroupLocks (Session.guildId session) c in
      Some (c, [], Polling_unlock (Session.guildId session) k)
  | Do section =>
      match section now c with
      | Next c trace k =>
          match advance now k c with
          | Some (c, trace', task) => Some (c, trace ++ trace', task)
          | None => None
          end
      | Throws c trace => Some (c, trace, Rejected)
      | Hangs => None
      end
  end.

(** The timer of a waiting task fires. In [_lock] (lines 88-94): if the flag
    is clear, set it and resolve; the method resumes right after the
    callback. In [_unlock] (lines 101-107): if the flag is set, clear it and
    resolve. Otherwise nothing happens and the timer stays armed. *)
Definition poll (now : Z) (task : Task) (c : MessageCollector)
    : option (MessageCollector * list Event * Task) :=
  match task with
  | Polling_lock groupId k =>
      if negb (lockFlag groupId c)
      then advance now k (setLockFlag groupId true c)
      else Some (c, [], task)
  | Polling_unlock groupId k =>
      if lockFlag groupId c
      then advance now k (setLockFlag groupId false c)
      else Some (c, [], task)
  | Fulfilled _ | Rejected => Some (c, [], task)
  end.

(** A call that has the collector to itself: started, then its timer fires
    [ticks] times, the clock reading [now] throughout. *)
Fixpoint polls (ticks : nat) (now : Z) (task : Task) (c : MessageCollector)
    : option (MessageCollector * list Event * Task) :=
  match ticks with
  | O => Some (c, [], task)
  | S ticks =>
      match poll now task c with
      | Some (c, trace, task) =>
          match polls ticks now task c with
          | Some (c, trace', task) => Some (c, trace ++ trace', task)
          | None => None
          end
      | None => None
      end
  end.

Definition call (ticks : nat) (now : Z) (prog : Async) (c : MessageCollector)
    : option (MessageCollector * list Event * Task) :=
  match advance now prog c with
  | Some (c, trace, task) =>
      match polls ticks now task c with
      | Some (c, trace', task) => Some (c, trace ++ trace', task)
      | None => None
      end
  | None => None
  end.


(** ** The process: several calls in flight

    Callers start methods, timers fire in any order, and the synchronous
    methods are called in between. [None]: the process hangs. *)

Inductive Method :=
  | Broadcast (session : Session.t)
  | BroadcastOnBot (session : Session.t) (elements : list h.t)
  | UpdateTemp (session : Session.t) (temp : GroupTemp.t)
  | GetTemp (session : Session.t).

Definition body (m : Method) : Async :=
  match m with
  | Broadcast session => broadcast session
  | BroadcastOnBot session elements => broadcastOnBot session elements
  | UpdateTemp session temp => updateTemp session temp
  | GetTemp session => getTemp session
  end.

Inductive Action :=
  | Invoke (m : Method) (now : Z)          (* a caller starts a method *)
  | Fire (i : nat) (now : Z)               (* the timer of task [i] fires *)
  | CallMute (session : Session.t) (time now1 now2 : Z)
  | CallIsMute (session : Session.t) (now : Z)
  | CallClear (groupId : option jsstring)
  | CallAddFilter (filter : MessageCollectorFilter)
  | CallCollect (func : Listener).

Record Process := mkProcess {
  collector : MessageCollector;
  tasks : list Task;
  events : list Event
}.

Definition boot (config : Config.t) : Process :=
  mkProcess (new config) [] [].

Definition step (a : Action) (p : Process) : option Process :=
  match a with
  | Invoke m now =>
      match advance now (body m) (collector p) with
      | Some (c, trace, task) =>
          Some (mkProcess c (tasks p ++ [task]) (events p ++ trace))
      | None => None
      end
  | Fire i now =>
      match tasks p !! i with
      | Some task =>
          match poll now task (collector p) with
          | Some (c, trace, task) =>
              Some (mkProcess c (<[i := task]> (tasks p)) (events p ++ trace))
          | None => None
          end
      | None => Some p
      end
  | CallMute session time now1 now2 =>
      Some (mkProcess (mute session time now1 now2 (collector p))
              (tasks p) (events p))
  | CallIsMute session now =>
      Some (mkProcess (snd (isMute session now (collector p)))
              (tasks p) (events p))
  | CallClear groupId =>
      Some (mkProcess (clear groupId (collector p)) (tasks p)
              (events p ++ [Cleared groupId]))
  | CallAddFilter filter =>
      Some (mkProcess (addFilter filter (collector p)) (tasks p) (events p))
  | CallCollect func =>
      Some (mkProcess (collect func (collector p)) (tasks p) (events p))
  end.

Fixpoint run (schedule : list Action) (p : Process) : option Process :=
  match schedule with
  | [] => Some p
  | a :: schedule =>
      match step a p with
      | Some p => run schedule p
      | None => None
      end
  end.

(** ** Vocabulary of the statements *)

(** The buffer of a group, as both broadcasts read it (lines 128-130 and
    167-169): a group without an entry has the empty buffer. *)
Definition buffer (groupId : jsstring) (c : MessageCollector) : list Message.t :=
  match _messages c !! groupId with Some a => a | None => [] end.

(** The last [n] entries of [l] (all of [l] when it has fewer). *)
Definition suffix {A} (n : nat) (l : list A) : list A :=
  drop (length l - n) l.

(** The append history of a group: what was pushed for it, in order, since
    its buffer was last cleared (since the start when it never was). *)
Definition history_step (groupId : jsstring) (past : list Message.t)
    (e : Event) : list Message.t :=
  match e with
  | Pushed g message => if decide (g = groupId) then past ++ [message] else past
  | Cleared (Some (ch :: rest)) =>
      if decide (ch :: rest = groupId) then [] else past
  | Cleared _ => []
  | _ => past
  end.

Definition history (groupId : jsstring) (trace : list Event) : list Message.t :=
  foldl (history_step groupId) [] trace.

(** The collector with the flag of a group at [b], its lock record created
    if it was not there yet. *)
Definition withLock (groupId : jsstring) (b : bool) (c : MessageCollector)
    : MessageCollector :=
  set_groupLocks <[groupId := GroupLock.mk b (muteUntil groupId c)]> c.

(** The collector with [groupArray] stored as the buffer of a group. *)
Definition withBuffer (groupId : jsstring) (groupArray : list Message.t)
    (c : MessageCollector) : MessageCollector :=
  set_messages <[groupId := groupArray]> c.


(** The gate of lines 209-212. *)
Definition someFilterMatches (c : MessageCollector) (session : Session.t)
    (message : Message.t) : Prop :=
  ∃ func, func ∈ _filters c ∧ func session message = true.

(** Everything that was ever pushed for a group, in order. *)
Definition appended (groupId : jsstring) (trace : list Event) : list Message.t :=
  omap (λ e, match e with
             | Pushed g message =>
                 if decide (g = groupId) then Some message else None
             | _ => None
             end) trace.

Definition notCleared (e : Event) : Prop :=
  match e with Cleared _ => False | _ => True end.

Definition isClear (a : Action) : Prop :=
  match a with CallClear _ => True | _ => False end.

(** ** Invariants of the process *)

Definition capacity (c : MessageCollector) : nat :=
  Z.to_nat (Config.maxMessages (_config c)).

(** Every buffer is the newest part of its history. *)
Definition bounded (c : MessageCollector) (log : list Event) : Prop :=
  ∀ groupId, buffer groupId c = suffix (capacity c) (history groupId log).

(** A synchronous section that went from [c] to [c'] logging [trace] kept
    the configuration and the buffers in step with the log. *)
Definition keeps (c c' : MessageCollector) (trace : list Event) : Prop :=
  _config c' = _config c
  ∧ (∀ log, bounded c log → bounded c' (log ++ trace))
  ∧ Forall notCleared trace.

(** Method bodies all of whose sections do so, and end, when the capacity is
    not negative. *)
Inductive safe : Async → Prop :=
  | safe_Return r : safe (Return r)
  | safe_Await_lock session k : safe k → safe (Await_lock session k)
  | safe_Await_unlock session k : safe k → safe (Await_unlock session k)
  | safe_Do section :
      (∀ now c, 0 ≤ Config.maxMessages (_config c) →
         section now c ≠ Hangs) →
      (∀ now c c' trace, 0 ≤ Config.maxMessages (_config c) →
         section now c = Throws c' trace → keeps c c' trace) →
      (∀ now c c' trace k, 0 ≤ Config.maxMessages (_config c) →
         section now c = Next c' trace k → keeps c c' trace) →
      (∀ now c c' trace k, 0 ≤ Config.maxMessages (_config c) →
         section now c = Next c' trace k → safe k) →
      safe (Do section).

Definition safe_task (task : Task) : Prop :=
  match task with
  | Polling_lock _ k | Polling_unlock _ k => safe k
  | Fulfilled _ | Rejected => True
  end.

(** What holds of the process at every moment. *)
Definition sound (config : Config.t) (p : Process) : Prop :=
  _config (collector p) = config
  ∧ bounded (collector p) (events p)
  ∧ Forall safe_task (tasks p).

(** Events that leave every history as it is. *)
Definition silent (e : Event) : Prop :=
  match e with
  | Pushed _ _ | Cleared _ => False
  | _ => True
  end.

(** ** Sample data *)

Definition plainSession (content : jsstring) (bot : Bot.t) : Session.t :=
  Session.mk false (lit "g1") content None (Author.mk None None) None bot.

Definition noBot : Bot.t := Bot.mk None None None.

(** A filter that lets everything through, and a well-behaved listener. *)
Definition always : MessageCollectorFilter := λ _ _, true.
Definition listening : Listener := λ _ _, ReturnsPromise false.
Definition failing : Listener := λ _ _, ReturnsPromise true.
Definition throwing : Listener := λ _ _, ThrowsError.

Definition watched (func : Listener) (maxMessages : Z) : MessageCollector :=
  collect func (addFilter always (new (Config.mk maxMessages))).

Definition hello : Session.t :=
  Session.mk false (lit "g1") (lit "hello") None
    (Author.mk (Some (lit "alice")) (Some (lit "1001"))) None
    (Bot.mk (Some (lit "Assistant")) None (Some (lit "7"))).

(** The same message from a sender whose id the platform did not give. *)
Definition anonymous : Session.t :=
  Session.mk false (lit "g1") (lit "hello") None
    (Author.mk (Some (lit "alice")) None) None
    (Bot.mk (Some (lit "Assistant")) None (Some (lit "7"))).

Definition blank : Session.t :=
  Session.mk false (lit "g1") (lit "  ") None
    (Author.mk (Some (lit "alice")) (Some (lit "1001"))) None
    (Bot.mk (Some (lit "Assistant")) None (Some (lit "7"))).

Definition direct : Session.t :=
  Session.mk true (lit "g1") (lit "hello") None
    (Author.mk (Some (lit "alice")) (Some (lit "1001"))) None
    (Bot.mk (Some (lit "Assistant")) None (Some (lit "7"))).

(** ** The lock discipline of the process *)

(** From [c] to [c'] no lock flag changed and no lock record went away. *)
Definition sameFlags (c c' : MessageCollector) : Prop :=
  ∀ groupId,
    lockFlag groupId c' = lockFlag groupId c
    ∧ (_groupLocks c !! groupId ≠ None → _groupLocks c' !! groupId ≠ None).

(** A section run by the holder of the lock of [groupId]: it leaves the
    flags alone, pushes for its own group only, and ends in [await
    this._unlock(session)] for that group followed by the [return], unless
    it throws or hangs. *)
Definition critical (groupId : jsstring)
    (section : Z → MessageCollector → SyncResult Async) : Prop :=
  ∀ now c,
    match section now c with
    | Next c' trace k =>
        sameFlags c c'
        ∧ Forall (λ e, ∀ g message, e = Pushed g message → g = groupId) trace
        ∧ ∃ session r,
            k = Await_unlock session (Return r)
            ∧ Session.guildId session = groupId
    | Throws c' trace =>
        sameFlags c c'
        ∧ Forall (λ e, ∀ g message, e = Pushed g message → g = groupId) trace
    | Hangs => True
    end.

(** A task as the methods of the collector leave it: waiting in [_lock] for
    a group whose record exists, about to run a critical section; or
    waiting in [_unlock] with the flag of its group set, about to return. *)
Definition disciplined (c : MessageCollector) (task : Task) : Prop :=
  match task with
  | Polling_lock groupId k =>
      _groupLocks c !! groupId ≠ None
      ∧ ∃ section, k = Do section ∧ critical groupId section
  | Polling_unlock groupId k =>
      lockFlag groupId c = true ∧ ∃ r, k = Return r
  | Fulfilled _ | Rejected => True
  end.

(** At most one task per group is between its [_lock] and its [_unlock]. *)
Definition exclusive (p : Process) : Prop :=
  Forall (disciplined (collector p)) (tasks p)
  ∧ ∀ i j groupId k k',
      tasks p !! i = Some (Polling_unlock groupId k) →
      tasks p !! j = Some (Polling_unlock groupId k') → i = j.

(** The lock of a group is stuck: its flag is set and no task is there to
    clear it. *)
Definition stuck (groupId : jsstring) (p : Process) : Prop :=
  lockFlag groupId (collector p) = true
  ∧ ∀ i k, tasks p !! i ≠ Some (Polling_unlock groupId k).

(** ** Calls made one after the other *)



(** * Properties *)

(** ** The normaliser, element by element *)

Section Normaliser.
Variable session : Session.t.

Lemma mapElement_acc (filteredBuffer : list jsstring) (element : h.t) :
  mapElement session filteredBuffer element
  = filteredBuffer ++ mapElement session [] element.
Proof.
  unfold mapElement.
  repeat case_decide; repeat case_match; simpl; by rewrite ?app_nil_r.
Qed.

Lemma foldl_mapElement_acc (elements : list h.t) :
  ∀ filteredBuffer,
    foldl (mapElement session) filteredBuffer elements
    = filteredBuffer ++ foldl (mapElement session) [] elements.
Proof.
  induction elements as [|element elements IH]; intros acc; simpl.
  - by rewrite app_nil_r.
  - rewrite (IH (mapElement session acc element)).
    rewrite (IH (mapElement session [] element)).
    rewrite (mapElement_acc acc). by rewrite app_assoc.
Qed.

Lemma foldl_mapElement_app (before after : list h.t) :
  foldl (mapElement session) [] (before ++ after)
  = foldl (mapElement session) [] before
    ++ foldl (mapElement session) [] after.
Proof. rewrite foldl_app. apply foldl_mapElement_acc. Qed.

(** Blank raw text aside, the output is the concatenation of what the
    elements before, the element itself and the elements after give. *)
Lemma mapElementToString_split (content : jsstring) (before after : list h.t)
    (element : h.t) :
  trimEnd content ≠ [] →
  mapElementToString session content (before ++ element :: after)
  = mapElementToString session content before
    ++ join (mapElement session [] element)
    ++ mapElementToString session content after.
Proof.
  intros Hraw. unfold mapElementToString, join.
  destruct (trimEnd content) as [|ch rest] eqn:E; [done|]. simpl.
  rewrite foldl_mapElement_app. simpl.
  rewrite (foldl_mapElement_acc after (mapElement session [] element)).
  by rewrite !concat_app.
Qed.
End Normaliser.

Lemma length_lt_1 {A} (l : list A) : (length l <? 1)%nat = true ↔ l = [].
Proof. destruct l; simpl; split; intros H; done. Qed.

Lemma length_lt_1_false {A} (l : list A) : l ≠ [] → (length l <? 1)%nat = false.
Proof. by destruct l. Qed.

Lemma mapElementToString_blank (session : Session.t) (content : jsstring)
    (elements : list h.t) :
  length (trimEnd content) = 0%nat →
  mapElementToString session content elements = [].
Proof.
  intros H. unfold mapElementToString.
  by rewrite (proj2 (length_lt_1 _) (nil_length_inv _ H)).
Qed.

Lemma mapElementToString_nil (session : Session.t) (content : jsstring) :
  mapElementToString session content [] = [].
Proof. unfold mapElementToString. by case_match. Qed.

(** What a text element adds when the raw text is not blank: its content as
    it is, or nothing when the content is blank. *)
Lemma mapElement_text (session : Session.t) (element : h.t) :
  h.type element = lit "text" →
  join (mapElement session [] element)
  = if decide (length (trimEnd (Attrs.content (h.attrs element))) = 0%nat)
    then [] else Attrs.content (h.attrs element).
Proof.
  intros Htype. unfold mapElement. rewrite decide_True by done.
  destruct (trimEnd (Attrs.content (h.attrs element))) eqn:E; simpl; [done|].
  by rewrite app_nil_r.
Qed.

(** C4, the part of the claim the code contradicts: a text element with
    trailing white space, here "hi " in a message whose raw text is "hi ",
    is not trimmed; the output keeps the space ("hi " and not "hi"). *)
Lemma text_element_not_trimmed :
  let session := plainSession (lit "hi ") noBot in
  let element := h.text (lit "hi ") in
  mapElementToString session (lit "hi ") [element] = lit "hi "
  ∧ trimEnd (Attrs.content (h.attrs element)) = lit "hi"
  ∧ mapElementToString session (lit "hi ") [element]
    ≠ trimEnd (Attrs.content (h.attrs element)).
Proof. vm_compute. repeat split; congruence. Qed.

(** C4 (amended): [mapElementToString] returns the empty string whenever the
    raw text, trimmed of trailing white space, has length 0, whatever the
    elements; otherwise a text element contributes its content unchanged
    (trailing white space kept), and nothing at all when that content
    trimmed of trailing white space is empty. *)
Theorem mapElementToString_text (session : Session.t) (content : jsstring)
    (before after : list h.t) (element : h.t) :
  (length (trimEnd content) = 0%nat →
   ∀ elements, mapElementToString session content elements = [])
  ∧ (length (trimEnd content) ≠ 0%nat →
     h.type element = lit "text" →
     mapElementToString session content (before ++ element :: after)
     = mapElementToString session content before
       ++ (if decide (length (trimEnd (Attrs.content (h.attrs element))) = 0%nat)
           then [] else Attrs.content (h.attrs element))
       ++ mapElementToString session content after).
Proof.
  split.
  - intros H elements. by apply mapElementToString_blank.
  - intros Hraw Htype.
    rewrite mapElementToString_split by (by destruct (trimEnd content)).
    by rewrite mapElement_text.
Qed.

Lemma mapElementToString_text_witness :
  let session := plainSession (lit "hi ") noBot in
  (length (trimEnd (lit "  ")) = 0%nat →
   ∀ elements, mapElementToString session (lit "  ") elements = [])
  ∧ mapElementToString session (lit "hi ")
      ([h.text (lit "a ")] ++ h.text (lit " ") :: [h.text (lit "b")])
    = lit "a b".
Proof.
  split.
  - apply (mapElementToString_text (plainSession (lit "hi ") noBot) (lit "  ")
             [] [] (h.text [])).
  - pose proof (proj2 (mapElementToString_text
        (plainSession (lit "hi ") noBot) (lit "hi ")
        [h.text (lit "a ")] [h.text (lit "b")] (h.text (lit " ")))) as H.
    rewrite H.
    + reflexivity.
    + vm_compute. lia.
    + reflexivity.
Defined.

(** The display name of a mention (lines 237-243). *)
Lemma mapElement_at (session : Session.t) (element : h.t) :
  h.type element = lit "at" →
  join (mapElement session [] element)
  = lit "("
    ++ match Attrs.name (h.attrs element) with
       | Some name => name
       | None =>
           if decide (Attrs.id (h.attrs element)
                      = Bot.selfId (Session.bot session))
           then Bot.username (Session.bot session) ?? lit "0"
           else Attrs.id (h.attrs element) ?? lit "0"
       end
    ++ lit "-" ++ template (Attrs.id (h.attrs element)) ++ lit "-<at>)".
Proof.
  intros Htype. unfold mapElement.
  rewrite decide_False by (rewrite Htype; done).
  rewrite decide_True by done.
  destruct (Attrs.name (h.attrs element)) as [name|]; case_decide;
    unfold join; simpl; by rewrite ?app_nil_r.
Qed.

(** C5: in a message whose raw text is not blank, a mention element adds
    [(name-id-<at>)], where name is the element's name attribute if present;
    else, when the mentioned id is the bot's selfId, the bot's name (or
    '0'); else the mentioned id (or '0'). "hello" with the mention
    {id:"42", name:"Bob"} gives "hello(Bob-42-<at>)", and a nameless mention
    of the bot's own id, the bot being named "Assistant", gives
    "(Assistant-<botid>-<at>)". *)
Theorem mapElementToString_mention (session : Session.t) (content : jsstring)
    (before after : list h.t) (element : h.t) :
  length (trimEnd content) ≠ 0%nat →
  h.type element = lit "at" →
  mapElementToString session content (before ++ element :: after)
  = mapElementToString session content before
    ++ (lit "("
        ++ match Attrs.name (h.attrs element) with
           | Some name => name
           | None =>
               if decide (Attrs.id (h.attrs element)
                          = Bot.selfId (Session.bot session))
               then Bot.username (Session.bot session) ?? lit "0"
               else Attrs.id (h.attrs element) ?? lit "0"
           end
        ++ lit "-" ++ template (Attrs.id (h.attrs element)) ++ lit "-<at>)")
    ++ mapElementToString session content after
  ∧ mapElementToString (plainSession (lit "hello") (Session.bot session))
      (lit "hello")
      [h.text (lit "hello"); h.at_ (Some (lit "42")) (Some (lit "Bob"))]
    = lit "hello(Bob-42-<at>)"
  ∧ ∀ botid selfUserId,
      mapElementToString
        (plainSession content
           (Bot.mk (Some (lit "Assistant")) selfUserId (Some botid)))
        content [h.at_ (Some botid) None]
      = lit "(Assistant-" ++ botid ++ lit "-<at>)".
Proof.
  intros Hraw Htype.
  assert (trimEnd content ≠ []) as Hraw' by (by destruct (trimEnd content)).
  split; [|split].
  - rewrite mapElementToString_split by done.
    by rewrite mapElement_at.
  - change [h.text (lit "hello"); h.at_ (Some (lit "42")) (Some (lit "Bob"))]
      with ([h.text (lit "hello")]
            ++ h.at_ (Some (lit "42")) (Some (lit "Bob")) :: []).
    rewrite mapElementToString_split by (vm_compute; congruence).
    rewrite mapElement_at by done. vm_compute. reflexivity.
  - intros botid selfUserId.
    change [h.at_ (Some botid) None] with ([] ++ h.at_ (Some botid) None :: []).
    rewrite mapElementToString_split by done.
    rewrite mapElement_at by done.
    rewrite !mapElementToString_nil. cbn [Attrs.name Attrs.id h.attrs h.at_
      Session.bot plainSession Bot.selfId Bot.username nullish template].
    rewrite decide_True by done.
    replace (lit "(Assistant-") with (lit "(" ++ lit "Assistant" ++ lit "-")
      by (vm_compute; reflexivity).
    rewrite app_nil_r. simpl app at 1. by rewrite <- !app_assoc.
Qed.

Lemma mapElementToString_mention_witness :
  let session :=
    plainSession (lit "hello") (Bot.mk (Some (lit "Assistant")) None (Some (lit "7"))) in
  mapElementToString session (lit "hello")
    ([h.text (lit "hello")] ++ h.at_ (Some (lit "7")) None :: [h.at_ None None])
  = lit "hello(Assistant-7-<at>)(0-undefined-<at>)".
Proof.
  intros session.
  pose proof (proj1 (mapElementToString_mention session (lit "hello")
    [h.text (lit "hello")] [h.at_ None None] (h.at_ (Some (lit "7")) None)
    ltac:(vm_compute; lia) eq_refl)) as H.
  rewrite H. vm_compute. reflexivity.
Defined.

(** ** The group store and the lock flag *)

Section Store.
Variable groupId : jsstring.

Lemma getGroupLocks_fst (c : MessageCollector) :
  fst (_getGroupLocks groupId c)
  = GroupLock.mk (lockFlag groupId c) (muteUntil groupId c).
Proof.
  unfold _getGroupLocks, lockFlag, muteUntil.
  destruct (_groupLocks c !! groupId) as [[]|]; done.
Qed.

Lemma getGroupLocks_snd (c : MessageCollector) :
  snd (_getGroupLocks groupId c) = withLock groupId (lockFlag groupId c) c.
Proof.
  unfold _getGroupLocks, withLock, lockFlag, muteUntil, set_groupLocks.
  destruct c as [ms ee fs gl gt cfg]; simpl.
  destruct (gl !! groupId) as [[l m]|] eqn:E; simpl; [|done].
  by rewrite insert_id.
Qed.

Lemma setLockFlag_withLock (b b' : bool) (c : MessageCollector) :
  setLockFlag groupId b (withLock groupId b' c) = withLock groupId b c.
Proof.
  unfold setLockFlag, withLock, set_groupLocks, muteUntil.
  destruct c as [ms ee fs gl gt cfg]; simpl. f_equal.
  rewrite alter_insert_eq. done.
Qed.

Lemma lockFlag_withLock (b : bool) (c : MessageCollector) :
  lockFlag groupId (withLock groupId b c) = b.
Proof. unfold lockFlag, withLock; simpl. by rewrite lookup_insert_eq. Qed.

Lemma muteUntil_withLock (b : bool) (c : MessageCollector) :
  muteUntil groupId (withLock groupId b c) = muteUntil groupId c.
Proof. unfold muteUntil at 1, withLock; simpl. by rewrite lookup_insert_eq. Qed.

Lemma withLock_withLock (b b' : bool) (c : MessageCollector) :
  withLock groupId b (withLock groupId b' c) = withLock groupId b c.
Proof.
  unfold withLock at 1. rewrite muteUntil_withLock.
  unfold withLock, set_groupLocks; simpl. by rewrite insert_insert_eq.
Qed.

Lemma muteUntil_withBuffer (g : jsstring) (a : list Message.t)
    (c : MessageCollector) :
  muteUntil groupId (withBuffer g a c) = muteUntil groupId c.
Proof. done. Qed.

Lemma withLock_withBuffer (b : bool) (a : list Message.t) (g : jsstring)
    (c : MessageCollector) :
  withLock groupId b (withBuffer g a c) = withBuffer g a (withLock groupId b c).
Proof. done. Qed.

Lemma buffer_withBuffer (a : list Message.t) (c : MessageCollector) :
  buffer groupId (withBuffer groupId a c) = a.
Proof. unfold buffer, withBuffer; simpl. by rewrite lookup_insert_eq. Qed.

Lemma buffer_withLock (g : jsstring) (b : bool) (c : MessageCollector) :
  buffer groupId (withLock g b c) = buffer groupId c.
Proof. done. Qed.
End Store.

(** ** Eviction *)

Lemma suffix_length {A} (n : nat) (l : list A) :
  length (suffix n l) = Nat.min (length l) n.
Proof. unfold suffix. rewrite length_drop. lia. Qed.

Lemma suffix_all {A} (n : nat) (l : list A) :
  (length l ≤ n)%nat → suffix n l = l.
Proof.
  intros H. unfold suffix. by replace (length l - n)%nat with 0%nat by lia.
Qed.

Lemma suffix_cons {A} (n : nat) (x : A) (l : list A) :
  (n ≤ length l)%nat → suffix n (x :: l) = suffix n l.
Proof.
  intros H. unfold suffix. simpl length.
  by replace (S (length l) - n)%nat with (S (length l - n)) by lia.
Qed.

Lemma suffix_suffix_snoc {A} (n : nat) (l : list A) (x : A) :
  suffix n (suffix n l ++ [x]) = suffix n (l ++ [x]).
Proof.
  unfold suffix. rewrite !length_app, length_drop. simpl.
  rewrite !drop_app, drop_drop, length_drop.
  f_equal; f_equal; lia.
Qed.

Lemma shift_while_enough (maxMessageSize : Z) (fuel : nat) :
  0 ≤ maxMessageSize →
  ∀ groupArray, (length groupArray ≤ fuel)%nat →
    shift_while fuel maxMessageSize groupArray
    = Some (suffix (Z.to_nat maxMessageSize) groupArray).
Proof.
  intros Hmax. induction fuel as [|fuel IH]; intros groupArray Hfuel.
  - destruct groupArray; [|simpl in Hfuel; lia]. simpl.
    destruct (Z.gtb_spec (Z.of_nat 0) maxMessageSize); [lia|].
    by rewrite suffix_all by (simpl; lia).
  - simpl. destruct (Z.gtb_spec (Z.of_nat (length groupArray)) maxMessageSize).
    + destruct groupArray as [|message rest]; [simpl in *; lia|].
      unfold shift; simpl tail. rewrite IH by (simpl in Hfuel; lia).
      rewrite suffix_cons; [done|]. simpl length in *. lia.
    + rewrite suffix_all; [done|lia].
Qed.

(** For a capacity that is not negative the loop ends, and what is left is
    the newest [maxMessageSize] entries. *)
Lemma evict_suffix (maxMessageSize : Z) (groupArray : list Message.t) :
  0 ≤ maxMessageSize →
  evict maxMessageSize groupArray
  = Some (suffix (Z.to_nat maxMessageSize) groupArray).
Proof.
  intros Hmax. unfold evict.
  destruct (Z.gtb_spec (Z.of_nat (length groupArray)) maxMessageSize).
  - by apply shift_while_enough.
  - rewrite suffix_all; [done|lia].
Qed.

(** For a negative capacity the loop never ends, whatever the fuel. *)
Lemma shift_while_negative (maxMessageSize : Z) (fuel : nat) :
  maxMessageSize < 0 →
  ∀ groupArray, shift_while fuel maxMessageSize groupArray = None.
Proof.
  intros Hmax. induction fuel as [|fuel IH]; intros groupArray; simpl;
    destruct (Z.gtb_spec (Z.of_nat (length groupArray)) maxMessageSize);
    try lia; auto.
Qed.

(** ** Filters and listeners *)

Lemma some_from_true (filters : list MessageCollectorFilter)
    (session : Session.t) (message : Message.t) :
  ∀ i, fst (some_from i filters session message) = true
       ↔ ∃ func, func ∈ filters ∧ func session message = true.
Proof.
  induction filters as [|func rest IH]; intros i; simpl.
  - split; [done|]. intros (f & Hin & _). by apply elem_of_nil in Hin.
  - destruct (func session message) eqn:E; simpl.
    + split; [|done]. intros _. exists func. split; [left|done].
    + destruct (some_from (S i) rest session message) as [found trace] eqn:E'.
      simpl. specialize (IH (S i)). rewrite E' in IH. simpl in IH.
      rewrite IH. split.
      * intros (f & Hin & Hf). exists f. split; [by right|done].
      * intros (f & Hin & Hf). apply elem_of_cons in Hin as [->|Hin];
          [congruence|]. by exists f.
Qed.

Lemma some_from_calls (filters : list MessageCollectorFilter)
    (session : Session.t) (message : Message.t) :
  ∀ i e, e ∈ snd (some_from i filters session message) →
         ∃ j, e = FilterCalled j session message.
Proof.
  induction filters as [|func rest IH]; intros i e; simpl.
  - intros H. by apply elem_of_nil in H.
  - destruct (func session message); simpl.
    + intros H. apply list_elem_of_singleton in H. eauto.
    + destruct (some_from (S i) rest session message) as [found trace] eqn:E.
      simpl. intros H. apply elem_of_cons in H as [->|H]; [eauto|].
      apply (IH (S i)). by rewrite E.
Qed.

Lemma emit_from_deliveries (listeners : list Listener) (session : Session.t)
    (messages : list Message.t) :
  ∀ i e, e ∈ snd (emit_from i listeners session messages) →
         ∃ j, e = ListenerCalled j session messages.
Proof.
  induction listeners as [|func rest IH]; intros i e; simpl.
  - intros H. by apply elem_of_nil in H.
  - destruct (func session messages); simpl.
    + destruct (emit_from (S i) rest session messages) as [threw trace] eqn:E.
      simpl. intros H. apply elem_of_cons in H as [->|H]; [eauto|].
      apply (IH (S i)). by rewrite E.
    + intros H. apply list_elem_of_singleton in H. eauto.
Qed.

(** A listener is called as soon as no listener registered before it
    throws. *)
Lemma emit_from_reaches (listeners : list Listener) (session : Session.t)
    (messages : list Message.t) :
  ∀ i k func,
    listeners !! k = Some func →
    (∀ j earlier, (j < k)%nat → listeners !! j = Some earlier →
                  earlier session messages ≠ ThrowsError) →
    ListenerCalled (i + k) session messages
    ∈ snd (emit_from i listeners session messages).
Proof.
  induction listeners as [|first rest IH]; intros i k func Hk Hbefore.
  - done.
  - simpl. destruct k as [|k].
    + rewrite Nat.add_0_r.
      destruct (first session messages); simpl.
      * destruct (emit_from (S i) rest session messages). simpl. left.
      * left.
    + destruct (first session messages) eqn:E; simpl.
      * destruct (emit_from (S i) rest session messages) as [threw trace] eqn:E'.
        simpl. right.
        replace (i + S k)%nat with (S i + k)%nat by lia.
        specialize (IH (S i) k func Hk). rewrite E' in IH. apply IH.
        intros j earlier Hj Hlook. apply (Hbefore (S j) earlier); [lia|done].
      * exfalso. apply (Hbefore 0%nat first); [lia|done|done].
Qed.

Lemma emit_from_threw (listeners : list Listener) (session : Session.t)
    (messages : list Message.t) :
  ∀ i, fst (emit_from i listeners session messages) = true
       ↔ ∃ func, func ∈ listeners ∧ func session messages = ThrowsError.
Proof.
  induction listeners as [|first rest IH]; intros i; simpl.
  - split; [done|]. intros (f & Hin & _). by apply elem_of_nil in Hin.
  - destruct (first session messages) eqn:E; simpl.
    + destruct (emit_from (S i) rest session messages) as [threw trace] eqn:E'.
      simpl. specialize (IH (S i)). rewrite E' in IH. simpl in IH.
      rewrite IH. split.
      * intros (f & Hin & Hf). exists f. split; [by right|done].
      * intros (f & Hin & Hf). apply elem_of_cons in Hin as [->|Hin];
          [congruence|]. by exists f.
    + split; [|done]. intros _. exists first. split; [left|done].
Qed.

(** ** One call on its own *)

Section Calls.
Variables (now : Z) (session : Session.t).
Let groupId := Session.guildId session.

Lemma advance_Await_lock (k : Async) (c : MessageCollector) :
  advance now (Await_lock session k) c
  = Some (withLock groupId (lockFlag groupId c) c, [], Polling_lock groupId k).
Proof.
  pose proof (getGroupLocks_snd groupId c) as H. subst groupId. simpl.
  destruct (_getGroupLocks (Session.guildId session) c) as [l c'].
  simpl in H. by rewrite H.
Qed.

Lemma advance_Await_unlock (k : Async) (c : MessageCollector) :
  advance now (Await_unlock session k) c
  = Some (withLock groupId (lockFlag groupId c) c, [], Polling_unlock groupId k).
Proof.
  pose proof (getGroupLocks_snd groupId c) as H. subst groupId. simpl.
  destruct (_getGroupLocks (Session.guildId session) c) as [l c'].
  simpl in H. by rewrite H.
Qed.

(** While the flag of the group is set, a call waiting in [_lock] stays
    where it is and changes nothing, however often its timer fires. *)
Lemma polls_blocked (ticks : nat) (k : Async) (c : MessageCollector) :
  lockFlag groupId c = true →
  polls ticks now (Polling_lock groupId k) c
  = Some (c, [], Polling_lock groupId k).
Proof.
  intros Hheld. induction ticks as [|ticks IH]; simpl; [done|].
  rewrite Hheld. simpl. by rewrite IH.
Qed.

Lemma polls_Rejected (ticks : nat) (c : MessageCollector) :
  polls ticks now Rejected c = Some (c, [], Rejected).
Proof. induction ticks as [|ticks IH]; simpl; [done|]. by rewrite IH. Qed.


(** A method of the shape [await _lock; section; await _unlock; return],
    started while the flag is clear: the first tick takes the flag and
    runs the section, the second tick clears the flag. *)
Lemma call_section (section : Z → MessageCollector → SyncResult Async)
    (c : MessageCollector) :
  lockFlag groupId c = false →
  call 1 now (Await_lock session (Do section)) c
  = match section now (withLock groupId true c) with
    | Next c trace k =>
        match advance now k c with
        | Some (c, trace', task) => Some (c, trace ++ trace', task)
        | None => None
        end
    | Throws c trace => Some (c, trace, Rejected)
    | Hangs => None
    end.
Proof.
  intros Hfree. unfold call. rewrite advance_Await_lock, Hfree.
  cbn [polls poll]. rewrite lockFlag_withLock. cbn [negb].
  rewrite setLockFlag_withLock. cbn [advance].
  destruct (section now (withLock groupId true c)) as [c1 trace k|c1 trace|];
    [|by rewrite app_nil_r|done].
  destruct (advance now k c1) as [[[c2 trace'] task]|]; [|done].
  by rewrite !app_nil_r.
Qed.

Lemma call_section_returns (section : Z → MessageCollector → SyncResult Async)
    (c c1 : MessageCollector) (trace : list Event) (r : Result) :
  lockFlag groupId c = false →
  section now (withLock groupId true c)
  = Next c1 trace (Await_unlock session (Return r)) →
  lockFlag groupId c1 = true →
  call 1 now (Await_lock session (Do section)) c
  = Some (withLock groupId true c1, trace, Polling_unlock groupId (Return r))
  ∧ call 2 now (Await_lock session (Do section)) c
    = Some (withLock groupId false c1, trace, Fulfilled r).
Proof.
  intros Hfree Hsection Hheld. split.
  - rewrite call_section, Hsection by done.
    rewrite advance_Await_unlock, Hheld. by rewrite app_nil_r.
  - unfold call. rewrite advance_Await_lock, Hfree.
    cbn [polls poll]. rewrite lockFlag_withLock. cbn [negb].
    rewrite setLockFlag_withLock. cbn [advance]. rewrite Hsection.
    rewrite advance_Await_unlock, Hheld. cbn [polls poll].
    rewrite lockFlag_withLock, setLockFlag_withLock. cbn [advance].
    by rewrite !app_nil_r.
Qed.

Lemma call_section_throws (section : Z → MessageCollector → SyncResult Async)
    (c c1 : MessageCollector) (trace : list Event) (ticks : nat) :
  lockFlag groupId c = false →
  section now (withLock groupId true c) = Throws c1 trace →
  call (S ticks) now (Await_lock session (Do section)) c
  = Some (c1, trace, Rejected).
Proof.
  intros Hfree Hsection. unfold call. rewrite advance_Await_lock, Hfree.
  cbn [polls poll]. rewrite lockFlag_withLock. cbn [negb].
  rewrite setLockFlag_withLock. cbn [advance]. rewrite Hsection.
  rewrite polls_Rejected. by rewrite !app_nil_r.
Qed.

Lemma isMute_eq (c : MessageCollector) :
  isMute session now c
  = (muteUntil groupId c >? now, withLock groupId (lockFlag groupId c) c).
Proof.
  unfold isMute.
  pose proof (getGroupLocks_fst groupId c) as H1.
  pose proof (getGroupLocks_snd groupId c) as H2. subst groupId.
  destruct (_getGroupLocks (Session.guildId session) c) as [l c'].
  simpl in *. by subst.
Qed.
End Calls.

Section BroadcastRun.
Variables (now : Z) (session : Session.t) (c : MessageCollector).
Let groupId := Session.guildId session.
Let content :=
  mapElementToString session (Session.content session) (incomingElements session).
Let message := incomingMessage session content.
Let groupArray :=
  suffix (Z.to_nat (Config.maxMessages (_config c))) (buffer groupId c ++ [message]).
Let held := withBuffer groupId groupArray (withLock groupId true c).

Hypothesis capacity : 0 ≤ Config.maxMessages (_config c).

Lemma broadcast_section_blank :
  content = [] →
  broadcast_section session now (withLock groupId true c)
  = Next (withLock groupId true c) [] (Await_unlock session (Return None)).
Proof.
  intros Hblank. unfold broadcast_section. fold content. by rewrite Hblank.
Qed.

Lemma broadcast_section_eval :
  content ≠ [] →
  broadcast_section session now (withLock groupId true c)
  = let calls := snd (some (_filters c) session message) in
    let deliveries := snd (emit (_eventEmitter c) session groupArray) in
    if fst (some (_filters c) session message)
       && negb (muteUntil groupId c >? now)
    then
      if fst (emit (_eventEmitter c) session groupArray)
      then Throws held (Pushed groupId message :: calls ++ deliveries)
      else Next held (Pushed groupId message :: calls ++ deliveries)
             (Await_unlock session (Return None))
    else Next held (Pushed groupId message :: calls)
           (Await_unlock session (Return None)).
Proof.
  intros Hcontent. unfold broadcast_section.
  change (mapElementToString session (Session.content session)
            (incomingElements session)) with content.
  rewrite (length_lt_1_false _ Hcontent).
  change (incomingMessage session content) with message.
  change (_config (withLock groupId true c)) with (_config c).
  change (match _messages (withLock groupId true c) !! Session.guildId session with
          | Some a => a | None => [] end) with (buffer groupId c).
  rewrite evict_suffix by done.
  change (suffix _ _) with groupArray.
  cbn [_filters set_messages].
  change (_filters (withLock groupId true c)) with (_filters c).
  destruct (some (_filters c) session message) as [matched calls] eqn:Es.
  change (set_messages <[Session.guildId session:=groupArray]>
            (withLock groupId true c)) with held.
  change (Session.guildId session) with groupId.
  cbn [fst snd]. destruct matched; cbn [andb]; [|done].
  rewrite isMute_eq. fold groupId.
  assert (withLock groupId (lockFlag groupId held) held = held) as ->.
  { unfold held. rewrite withLock_withBuffer.
    change (lockFlag groupId (withBuffer groupId groupArray (withLock groupId true c)))
      with (lockFlag groupId (withLock groupId true c)).
    by rewrite lockFlag_withLock, withLock_withLock. }
  change (muteUntil groupId held) with (muteUntil groupId (withLock groupId true c)).
  rewrite muteUntil_withLock.
  destruct (muteUntil groupId c >? now); cbn [negb]; [done|].
  change (_eventEmitter held) with (_eventEmitter c).
  by destruct (emit (_eventEmitter c) session groupArray) as [[] deliveries].
Qed.
End BroadcastRun.

(** ** [broadcast], from call to settlement *)

Section BroadcastCall.
Variables (now : Z) (session : Session.t) (c : MessageCollector).
Let groupId := Session.guildId session.
Let content :=
  mapElementToString session (Session.content session) (incomingElements session).
Let message := incomingMessage session content.
Let groupArray :=
  suffix (Z.to_nat (Config.maxMessages (_config c))) (buffer groupId c ++ [message]).

Hypothesis group : Session.isDirect session = false.
Hypothesis free : lockFlag groupId c = false.

Lemma broadcast_call_blank :
  content = [] →
  call 2 now (broadcast session) c
  = Some (withLock groupId false c, [], Fulfilled None).
Proof.
  intros Hblank. unfold broadcast. rewrite group.
  destruct (call_section_returns now session (broadcast_section session)
              c (withLock groupId true c) [] None) as [_ ->]; try done.
  - by apply broadcast_section_blank.
  - apply lockFlag_withLock.
  - by rewrite withLock_withLock.
Qed.

Hypothesis capacity : 0 ≤ Config.maxMessages (_config c).

Lemma broadcast_call :
  content ≠ [] →
  call 2 now (broadcast session) c
  = let calls := snd (some (_filters c) session message) in
    let deliveries := snd (emit (_eventEmitter c) session groupArray) in
    if fst (some (_filters c) session message)
       && negb (muteUntil groupId c >? now)
    then
      if fst (emit (_eventEmitter c) session groupArray)
      then Some (withBuffer groupId groupArray (withLock groupId true c),
                 Pushed groupId message :: calls ++ deliveries, Rejected)
      else Some (withBuffer groupId groupArray (withLock groupId false c),
                 Pushed groupId message :: calls ++ deliveries, Fulfilled None)
    else Some (withBuffer groupId groupArray (withLock groupId false c),
               Pushed groupId message :: calls, Fulfilled None).
Proof.
  intros Hcontent. unfold broadcast. rewrite group.
  pose proof (broadcast_section_eval now session c capacity Hcontent) as Heval.
  cbv zeta in Heval |- *.
  pose proof (lockFlag_withLock groupId true c : lockFlag groupId
            (withBuffer groupId groupArray (withLock groupId true c)) = true)
    as Hheld.
  assert (withLock groupId false
            (withBuffer groupId groupArray (withLock groupId true c))
          = withBuffer groupId groupArray (withLock groupId false c)) as Hrel
    by (by rewrite withLock_withBuffer, withLock_withLock).
  revert Heval Hheld Hrel.
  unfold groupArray, message, content, groupId.
  destruct (fst (some _ _ _) && negb _).
  - destruct (fst (emit _ _ _)); intros Heval Hheld Hrel.
    + by apply call_section_throws.
    + destruct (call_section_returns now session (broadcast_section session)
                  c _ _ None free Heval Hheld) as [_ ->].
      by rewrite Hrel.
  - intros Heval Hheld Hrel.
    destruct (call_section_returns now session (broadcast_section session)
                c _ _ None free Heval Hheld) as [_ ->].
    by rewrite Hrel.
Qed.
End BroadcastCall.

Lemma emitted_in_emit (listeners : list Listener) (session : Session.t)
    (messages : list Message.t) :
  Emitted session messages ∈ snd (emit listeners session messages).
Proof.
  unfold emit. destruct (emit_from 0 listeners session messages). simpl. left.
Qed.

Lemma emit_reaches (listeners : list Listener) (session : Session.t)
    (messages : list Message.t) (k : nat) (func : Listener) :
  listeners !! k = Some func →
  (∀ j earlier, (j < k)%nat → listeners !! j = Some earlier →
                earlier session messages ≠ ThrowsError) →
  ListenerCalled k session messages ∈ snd (emit listeners session messages).
Proof.
  intros Hk Hbefore. unfold emit.
  pose proof (emit_from_reaches listeners session messages 0 k func Hk Hbefore)
    as H.
  destruct (emit_from 0 listeners session messages). simpl in *. by right.
Qed.

Lemma emit_threw (listeners : list Listener) (session : Session.t)
    (messages : list Message.t) :
  fst (emit listeners session messages) = true
  ↔ ∃ func, func ∈ listeners ∧ func session messages = ThrowsError.
Proof.
  rewrite <- (emit_from_threw listeners session messages 0). unfold emit.
  by destruct (emit_from 0 listeners session messages).
Qed.

(** Which listeners [emit] calls: those that no listener registered before
    them stops by throwing, and no others. *)
Lemma emit_from_only (listeners : list Listener) (session : Session.t)
    (messages : list Message.t) :
  ∀ i k,
    ListenerCalled k session messages
    ∈ snd (emit_from i listeners session messages) →
    ∃ k', k = (i + k')%nat
          ∧ is_Some (listeners !! k')
          ∧ ∀ j earlier, (j < k')%nat → listeners !! j = Some earlier →
              earlier session messages ≠ ThrowsError.
Proof.
  induction listeners as [|func rest IH]; intros i k; simpl.
  - intros H. by apply elem_of_nil in H.
  - assert (∃ k', i = (i + k')%nat
                  ∧ is_Some ((func :: rest) !! k')
                  ∧ ∀ j earlier, (j < k')%nat →
                      (func :: rest) !! j = Some earlier →
                      earlier session messages ≠ ThrowsError) as Hfirst.
    { exists 0%nat. split; [lia|]. split; [by eexists|]. intros j e Hj. lia. }
    destruct (func session messages) eqn:E; simpl.
    + destruct (emit_from (S i) rest session messages) as [threw trace] eqn:E'.
      simpl. intros H. apply elem_of_cons in H as [[= ->]|H]; [done|].
      specialize (IH (S i) k). rewrite E' in IH.
      destruct (IH H) as (k' & -> & Hsome & Hbefore).
      exists (S k'). split; [lia|]. split; [done|].
      intros [|j] earlier Hj Hlook; simpl in Hlook.
      * injection Hlook as <-. congruence.
      * apply (Hbefore j earlier); [lia|done].
    + intros H. apply list_elem_of_singleton in H as [= ->]. done.
Qed.

Lemma emit_called (listeners : list Listener) (session : Session.t)
    (messages : list Message.t) (k : nat) (s : Session.t)
    (b : list Message.t) :
  ListenerCalled k s b ∈ snd (emit listeners session messages)
  ↔ s = session ∧ b = messages
    ∧ is_Some (listeners !! k)
    ∧ ∀ j earlier, (j < k)%nat → listeners !! j = Some earlier →
        earlier session messages ≠ ThrowsError.
Proof.
  unfold emit.
  pose proof (emit_from_deliveries listeners session messages 0) as Hform.
  pose proof (emit_from_only listeners session messages 0 k) as Honly.
  pose proof (emit_from_reaches listeners session messages 0 k) as Hreach.
  destruct (emit_from 0 listeners session messages) as [threw trace].
  simpl in *. split.
  - intros H. apply elem_of_cons in H as [H|H]; [done|].
    destruct (Hform _ H) as [j [= -> -> ->]].
    destruct (Honly H) as (k' & -> & Hsome & Hbefore). done.
  - intros (-> & -> & [func Hfunc] & Hbefore). right. by apply (Hreach func).
Qed.

(** C1, as stated, fails: with a filter that matches, a group that is not
    muted and the listeners [throwing; listening], the gate is open and yet
    the buffer does not reach all subscribers: the second one is never
    called. *)
Lemma later_listener_not_called :
  let c := collect listening (watched throwing 10) in
  ∃ c' trace,
    call 2 0 (broadcast hello) c = Some (c', trace, Rejected)
    ∧ someFilterMatches c hello (incomingMessage hello (lit "hello"))
    ∧ muteUntil (lit "g1") c ≤ 0
    ∧ _eventEmitter c !! 1%nat = Some listening
    ∧ ∀ s b, ListenerCalled 1 s b ∉ trace.
Proof.
  intros c. eexists _, _.
  rewrite (broadcast_call 0 hello c);
    [|reflexivity|reflexivity|simpl; lia|vm_compute; congruence].
  split; [reflexivity|]. split; [exists always; split; [left|reflexivity]|].
  split; [reflexivity|]. split; [reflexivity|].
  intros s b Hin. apply elem_of_cons in Hin as [Hin|Hin]; [done|].
  apply elem_of_app in Hin as [Hin|Hin].
  - by apply some_from_calls in Hin as [j Hj].
  - apply emit_called in Hin as (_ & _ & _ & Hbefore).
    by apply (Hbefore 0%nat throwing); [lia|reflexivity|].
Qed.

(** C1 (amended): a group message with non-empty normalised content,
    handled by [broadcast] (capacity not negative, lock free at the call):
    the buffer is emitted exactly when some registered filter answers true
    on (session, message) and the mute-until timestamp of the group is not
    after the current time. When it is emitted, a listener is called (with
    the session and the buffer) exactly when no listener registered before
    it throws: all of them when none throws, and none of those registered
    after one that throws. When it is not emitted, in particular while the
    group is muted, no listener is called. In every case the message has
    been appended to the buffer. *)
Theorem broadcast_dispatch_gate (now : Z) (session : Session.t)
    (c : MessageCollector) :
  let groupId := Session.guildId session in
  let content :=
    mapElementToString session (Session.content session)
      (incomingElements session) in
  let message := incomingMessage session content in
  let open := someFilterMatches c session message ∧ muteUntil groupId c ≤ now in
  Session.isDirect session = false →
  0 ≤ Config.maxMessages (_config c) →
  lockFlag groupId c = false →
  content ≠ [] →
  ∃ c' trace task,
    call 2 now (broadcast session) c = Some (c', trace, task)
    ∧ buffer groupId c'
      = suffix (Z.to_nat (Config.maxMessages (_config c)))
          (buffer groupId c ++ [message])
    ∧ Pushed groupId message ∈ trace
    ∧ (∀ s b, Emitted s b ∈ trace ↔
         open ∧ s = session ∧ b = buffer groupId c')
    ∧ (∀ k s b, ListenerCalled k s b ∈ trace ↔
         open ∧ s = session ∧ b = buffer groupId c'
         ∧ is_Some (_eventEmitter c !! k)
         ∧ ∀ j earlier, (j < k)%nat → _eventEmitter c !! j = Some earlier →
             earlier session (buffer groupId c') ≠ ThrowsError).
Proof.
  intros groupId content message open Hgroup Hcap Hfree Hcontent.
  pose proof (broadcast_call now session c Hgroup Hfree Hcap Hcontent) as Hcall.
  cbv zeta in Hcall.
  fold groupId content message in Hcall.
  set (groupArray := suffix _ _) in *.
  assert (fst (some (_filters c) session message) && negb (muteUntil groupId c >? now)
          = true ↔ open) as Hopen.
  { unfold open. rewrite andb_true_iff, negb_true_iff, Z.gtb_ltb, Z.ltb_ge.
    unfold some. by rewrite some_from_true. }
  assert (∀ e, e ∈ Pushed groupId message :: snd (some (_filters c) session message) →
            (∀ s b, e ≠ Emitted s b) ∧ (∀ k s b, e ≠ ListenerCalled k s b))
    as Hquiet.
  { intros e He. apply elem_of_cons in He as [->|He]; [done|].
    apply some_from_calls in He as [j ->]. done. }
  destruct (fst (some (_filters c) session message)
            && negb (muteUntil groupId c >? now)) eqn:Egate.
  - assert open as Ho by (by apply Hopen).
    assert (∃ c' task,
      call 2 now (broadcast session) c
      = Some (c', Pushed groupId message
                  :: snd (some (_filters c) session message)
                     ++ snd (emit (_eventEmitter c) session groupArray), task)
      ∧ buffer groupId c' = groupArray) as (c' & task & Hc & Hbuf).
    { destruct (fst (emit (_eventEmitter c) session groupArray));
        eexists _, _; (split; [exact Hcall|]); apply buffer_withBuffer. }
    eexists c', _, task. rewrite Hbuf.
    split; [exact Hc|]. split; [done|]. split; [left|]. split.
    + intros s b. split.
      * intros Hin. apply elem_of_cons in Hin as [Hin|Hin]; [done|].
        apply elem_of_app in Hin as [Hin|Hin].
        { by apply some_from_calls in Hin as [j Hj]. }
        unfold emit in Hin.
        pose proof (emit_from_deliveries (_eventEmitter c) session groupArray 0)
          as Hform.
        destruct (emit_from 0 (_eventEmitter c) session groupArray)
          as [threw deliveries]. simpl in *.
        apply elem_of_cons in Hin as [[= -> ->]|Hin]; [done|].
        by destruct (Hform _ Hin) as [j Hj].
      * intros (_ & -> & ->). right. apply elem_of_app. right.
        apply emitted_in_emit.
    + intros k s b. split.
      * intros Hin. apply elem_of_cons in Hin as [Hin|Hin]; [done|].
        apply elem_of_app in Hin as [Hin|Hin].
        { by apply some_from_calls in Hin as [j Hj]. }
        apply emit_called in Hin as (-> & -> & Hsome & Hbefore). done.
      * intros (_ & -> & -> & Hsome & Hbefore). right. apply elem_of_app.
        right. by apply emit_called.
  - assert (¬ open) as Hno
      by (intros Ho; pose proof (proj2 Hopen Ho); discriminate).
    eexists _, _, _. split; [exact Hcall|].
    rewrite buffer_withBuffer.
    split; [done|]. split; [left|]. split.
    + intros s b. split; [|by intros [Ho _]].
      intros He. destruct (Hquiet _ He) as [H _].
      exfalso. by apply (H s b).
    + intros k s b. split; [|by intros [Ho _]].
      intros He. destruct (Hquiet _ He) as [_ H].
      exfalso. by apply (H k s b).
Qed.

Lemma broadcast_dispatch_gate_witness :
  let c := collect listening (watched throwing 10) in
  ∃ c' trace task,
    call 2 0 (broadcast hello) c = Some (c', trace, task)
    ∧ ListenerCalled 0 hello (buffer (lit "g1") c') ∈ trace
    ∧ ListenerCalled 1 hello (buffer (lit "g1") c') ∉ trace.
Proof.
  intros c.
  destruct (broadcast_dispatch_gate 0 hello c)
    as (c' & trace & task & Hcall & _ & _ & _ & Hcalled).
  - reflexivity.
  - simpl. lia.
  - reflexivity.
  - vm_compute. congruence.
  - exists c', trace, task. split; [exact Hcall|]. split.
    + apply Hcalled. split; [|split; [done|split; [done|split]]].
      * split; [exists always; split; [left|reflexivity]|].
        replace (muteUntil (Session.guildId hello) c) with 0 by reflexivity.
        lia.
      * by eexists.
      * intros j earlier Hj. lia.
    + intros Hin. apply Hcalled in Hin as (_ & _ & _ & _ & Hbefore).
      by apply (Hbefore 0%nat throwing); [lia|reflexivity|].
Defined.

(** ** The buffers follow the history *)

Lemma history_snoc (groupId : jsstring) (log : list Event) (e : Event) :
  history groupId (log ++ [e]) = history_step groupId (history groupId log) e.
Proof. unfold history. by rewrite foldl_app. Qed.

Lemma history_silent (groupId : jsstring) (trace : list Event) :
  Forall silent trace →
  ∀ log, history groupId (log ++ trace) = history groupId log.
Proof.
  unfold history. induction 1 as [|e trace He _ IH]; intros log.
  - by rewrite app_nil_r.
  - rewrite (cons_middle e log trace), app_assoc, IH.
    rewrite foldl_app. simpl. by destruct e.
Qed.

Lemma some_silent (filters : list MessageCollectorFilter) (session : Session.t)
    (message : Message.t) :
  Forall silent (snd (some filters session message)).
Proof.
  apply Forall_forall. intros e He.
  by apply some_from_calls in He as [j ->].
Qed.

Lemma emit_silent (listeners : list Listener) (session : Session.t)
    (messages : list Message.t) :
  Forall silent (snd (emit listeners session messages)).
Proof.
  unfold emit.
  pose proof (emit_from_deliveries listeners session messages 0) as H.
  destruct (emit_from 0 listeners session messages) as [threw trace].
  simpl in *. constructor; [done|].
  apply Forall_forall. intros e He. by destruct (H e He) as [j ->].
Qed.

Lemma keeps_refl (c : MessageCollector) : keeps c c [].
Proof.
  split; [done|]. split; [|constructor]. intros log H. by rewrite app_nil_r.
Qed.

Lemma keeps_trans (c1 c2 c3 : MessageCollector) (trace trace' : list Event) :
  keeps c1 c2 trace → keeps c2 c3 trace' → keeps c1 c3 (trace ++ trace').
Proof.
  intros (Hcfg & H & Hn) (Hcfg' & H' & Hn'). split; [congruence|].
  split; [|by apply Forall_app].
  intros log Hb. rewrite app_assoc. auto.
Qed.

(** Whatever touches only the lock table or the temp table keeps the
    buffers. *)
Lemma keeps_same_messages (c c' : MessageCollector) :
  _messages c' = _messages c → _config c' = _config c → keeps c c' [].
Proof.
  intros Hm Hcfg. split; [done|]. split; [|constructor]. intros log Hb groupId.
  rewrite app_nil_r. unfold buffer, capacity. rewrite Hm, Hcfg. apply Hb.
Qed.

Lemma keeps_withLock (groupId : jsstring) (b : bool) (c : MessageCollector) :
  keeps c (withLock groupId b c) [].
Proof. by apply keeps_same_messages. Qed.

(** Appending to a group and evicting: the step of both broadcasts. *)
Lemma keeps_append (groupId : jsstring) (message : Message.t)
    (c : MessageCollector) (rest : list Event) :
  Forall silent rest →
  keeps c
    (withBuffer groupId (suffix (capacity c) (buffer groupId c ++ [message])) c)
    (Pushed groupId message :: rest).
Proof.
  intros Hrest. split; [done|]. split; cycle 1.
  { constructor; [done|]. eapply Forall_impl; [exact Hrest|]. by intros []. }
  intros log Hb g.
  rewrite (cons_middle _ log rest), app_assoc, history_silent by done.
  rewrite history_snoc. cbn [history_step].
  change (capacity (withBuffer _ _ c)) with (capacity c).
  destruct (decide (groupId = g)) as [->|Hne].
  - rewrite buffer_withBuffer, (Hb g). apply suffix_suffix_snoc.
  - rewrite <- (Hb g). unfold buffer, withBuffer. simpl.
    by rewrite lookup_insert_ne.
Qed.

Lemma getGroupLocks_messages (groupId : jsstring) (c : MessageCollector) :
  _messages (snd (_getGroupLocks groupId c)) = _messages c
  ∧ _config (snd (_getGroupLocks groupId c)) = _config c
  ∧ _eventEmitter (snd (_getGroupLocks groupId c)) = _eventEmitter c.
Proof. by rewrite getGroupLocks_snd. Qed.

Lemma keeps_same_after (c c1 c2 : MessageCollector) (trace : list Event) :
  keeps c c1 trace → _messages c2 = _messages c1 → _config c2 = _config c1 →
  keeps c c2 trace.
Proof.
  intros Hk Hm Hcfg. rewrite <- (app_nil_r trace).
  eapply keeps_trans; [exact Hk|]. by apply keeps_same_messages.
Qed.

(** How the section of [broadcast] ends, from any state. *)
Lemma broadcast_section_cases (now : Z) (session : Session.t)
    (c : MessageCollector) :
  0 ≤ Config.maxMessages (_config c) →
  broadcast_section session now c
  = Next c [] (Await_unlock session (Return None))
  ∨ ∃ c' message rest,
      Forall silent rest
      ∧ keeps c c' (Pushed (Session.guildId session) message :: rest)
      ∧ (broadcast_section session now c
         = Next c' (Pushed (Session.guildId session) message :: rest)
             (Await_unlock session (Return None))
         ∨ broadcast_section session now c
           = Throws c' (Pushed (Session.guildId session) message :: rest)).
Proof.
  intros Hcap. unfold broadcast_section.
  set (content := mapElementToString _ _ _).
  set (message := incomingMessage session content).
  destruct (length content <? 1)%nat; [by left|]. right.
  rewrite evict_suffix by done.
  fold (buffer (Session.guildId session) c).
  fold (withBuffer (Session.guildId session)
          (suffix (Z.to_nat (Config.maxMessages (_config c)))
             (buffer (Session.guildId session) c ++ [message])) c).
  set (appended := withBuffer _ _ c).
  pose proof (some_silent (_filters appended) session message) as Hcalls.
  destruct (some (_filters appended) session message) as [matched calls].
  simpl in Hcalls.
  assert (∀ rest, Forall silent rest →
            keeps c appended (Pushed (Session.guildId session) message :: rest))
    as Hkeep by (intros rest Hrest; by apply keeps_append).
  destruct matched.
  - rewrite isMute_eq.
    set (c' := withLock _ _ appended).
    assert (∀ rest, Forall silent rest →
              keeps c c' (Pushed (Session.guildId session) message :: rest))
      as Hkeep'.
    { intros rest Hrest. by apply (keeps_same_after c appended); [apply Hkeep|..]. }
    destruct (negb _).
    + pose proof (emit_silent (_eventEmitter c') session
                    (suffix (Z.to_nat (Config.maxMessages (_config c)))
                       (buffer (Session.guildId session) c ++ [message])))
        as Hdel.
      destruct (emit _ _ _) as [threw deliveries]. simpl in Hdel.
      exists c', message, (calls ++ deliveries).
      split; [by apply Forall_app|]. split; [apply Hkeep'; by apply Forall_app|].
      destruct threw; [by right|by left].
    + exists c', message, calls. split; [done|]. split; [by apply Hkeep'|by left].
  - exists appended, message, calls. split; [done|]. split; [by apply Hkeep|by left].
Qed.

Lemma broadcastOnBot_section_cases (now : Z) (session : Session.t)
    (elements : list h.t) (c : MessageCollector) :
  0 ≤ Config.maxMessages (_config c) →
  ∃ c' trace,
    broadcastOnBot_section session elements now c
    = Next c' trace (Await_unlock session (Return None))
    ∧ keeps c c' trace.
Proof.
  intros Hcap. unfold broadcastOnBot_section.
  set (content := mapElementToString _ _ _).
  destruct (length content <? 1)%nat.
  - exists c, []. split; [done|apply keeps_refl].
  - rewrite evict_suffix by done. eexists _, _. split; [done|].
    by apply (keeps_append (Session.guildId session) _ c []).
Qed.

Lemma safe_release (session : Session.t) (r : Result) :
  safe (Await_unlock session (Return r)).
Proof. repeat constructor. Qed.

Lemma safe_body (m : Method) : safe (body m).
Proof.
  destruct m as [session|session elements|session temp|session]; simpl.
  - unfold broadcast. destruct (Session.isDirect session); [constructor|].
    constructor. constructor.
    + intros now c Hcap.
      destruct (broadcast_section_cases now session c Hcap)
        as [->|(c' & m & rest & _ & _ & [-> | ->])]; done.
    + intros now c c' trace Hcap.
      destruct (broadcast_section_cases now session c Hcap)
        as [->|(c1 & m & rest & _ & Hk & [-> | ->])]; [done|done|].
      by intros [= <- <-].
    + intros now c c' trace k Hcap.
      destruct (broadcast_section_cases now session c Hcap)
        as [->|(c1 & m & rest & _ & Hk & [-> | ->])]; [| |done].
      * intros [= <- <- _]. apply keeps_refl.
      * by intros [= <- <- _].
    + intros now c c' trace k Hcap.
      destruct (broadcast_section_cases now session c Hcap)
        as [->|(c1 & m & rest & _ & Hk & [-> | ->])]; [| |done];
        intros [= _ _ <-]; apply safe_release.
  - unfold broadcastOnBot. destruct (Session.isDirect session); [constructor|].
    constructor. constructor.
    + intros now c Hcap.
      by destruct (broadcastOnBot_section_cases now session elements c Hcap)
        as (c' & trace & -> & _).
    + intros now c c' trace Hcap.
      by destruct (broadcastOnBot_section_cases now session elements c Hcap)
        as (c1 & trace1 & -> & _).
    + intros now c c' trace k Hcap.
      destruct (broadcastOnBot_section_cases now session elements c Hcap)
        as (c1 & trace1 & -> & Hk). by intros [= <- <- _].
    + intros now c c' trace k Hcap.
      destruct (broadcastOnBot_section_cases now session elements c Hcap)
        as (c1 & trace1 & -> & Hk). intros [= _ _ <-]. apply safe_release.
  - unfold updateTemp, updateTemp_section. constructor. constructor; try done.
    + intros now c c' trace k _ [= <- <- _]. by apply keeps_same_messages.
    + intros now c c' trace k _ [= _ _ <-]. apply safe_release.
  - unfold getTemp, getTemp_section. constructor. constructor; try done.
    + intros now c c' trace k _ [= <- <- _]. by apply keeps_same_messages.
    + intros now c c' trace k _ [= _ _ <-]. apply safe_release.
Qed.

Lemma advance_safe (now : Z) (prog : Async) :
  safe prog →
  ∀ c, 0 ≤ Config.maxMessages (_config c) →
    ∃ c' trace task,
      advance now prog c = Some (c', trace, task)
      ∧ keeps c c' trace ∧ safe_task task.
Proof.
  induction 1 as [r|session k Hk IH|session k Hk IH
                  |section Hends Hthrows Hnext Hsafe IH]; intros c Hcap.
  - exists c, [], (Fulfilled r). split; [done|]. split; [apply keeps_refl|done].
  - rewrite advance_Await_lock. eexists _, _, _. split; [done|].
    split; [apply keeps_withLock|done].
  - rewrite advance_Await_unlock. eexists _, _, _. split; [done|].
    split; [apply keeps_withLock|done].
  - simpl. destruct (section now c) as [c1 trace k|c1 trace|] eqn:E.
    + pose proof (Hnext now c c1 trace k Hcap E) as Hkeep.
      assert (0 ≤ Config.maxMessages (_config c1)) as Hcap1
        by (by rewrite (proj1 Hkeep)).
      destruct (IH now c c1 trace k Hcap E c1 Hcap1)
        as (c2 & trace' & task & -> & Hkeep' & Htask).
      exists c2, (trace ++ trace'), task. split; [done|].
      split; [by eapply keeps_trans|done].
    + exists c1, trace, Rejected. split; [done|]. split; [|done].
      by apply (Hthrows now).
    + by destruct (Hends now c Hcap).
Qed.

Lemma keeps_setLockFlag (groupId : jsstring) (b : bool) (c : MessageCollector) :
  keeps c (setLockFlag groupId b c) [].
Proof. by apply keeps_same_messages. Qed.

Lemma poll_safe (now : Z) (task : Task) (c : MessageCollector) :
  safe_task task → 0 ≤ Config.maxMessages (_config c) →
  ∃ c' trace task',
    poll now task c = Some (c', trace, task')
    ∧ keeps c c' trace ∧ safe_task task'.
Proof.
  intros Htask Hcap.
  assert (∃ c' trace task', Some (c, [], task) = Some (c', trace, task')
            ∧ keeps c c' trace ∧ safe_task task') as Hstay.
  { exists c, [], task. split; [done|]. split; [apply keeps_refl|done]. }
  assert (∀ b groupId k, safe k →
            ∃ c' trace task',
              advance now k (setLockFlag groupId b c) = Some (c', trace, task')
              ∧ keeps c c' trace ∧ safe_task task') as Hmove.
  { intros b groupId k Hk.
    destruct (advance_safe now k Hk (setLockFlag groupId b c) Hcap)
      as (c' & trace & task' & Hadv & Hkeep & Hsafe).
    exists c', trace, task'. split; [done|]. split; [|done].
    change trace with ([] ++ trace).
    eapply keeps_trans; [apply keeps_setLockFlag|done]. }
  destruct task as [groupId k|groupId k|r|]; simpl in *; auto.
  - destruct (negb (lockFlag groupId c)); auto.
  - destruct (lockFlag groupId c); auto.
Qed.

Lemma bounded_clear (groupId : option jsstring) (c : MessageCollector)
    (log : list Event) :
  bounded c log → bounded (clear groupId c) (log ++ [Cleared groupId]).
Proof.
  intros Hb g. rewrite history_snoc. cbn [history_step].
  assert (capacity (clear groupId c) = capacity c) as ->
    by (by destruct groupId as [[|]|]).
  destruct groupId as [[|ch rest]|]; simpl; try done.
  case_decide as Hg.
  - subst g. unfold buffer. simpl. by rewrite lookup_insert_eq.
  - rewrite <- (Hb g). unfold buffer. simpl. by rewrite lookup_insert_ne.
Qed.

Lemma mute_messages (session : Session.t) (time now1 now2 : Z)
    (c : MessageCollector) :
  _messages (mute session time now1 now2 c) = _messages c
  ∧ _config (mute session time now1 now2 c) = _config c
  ∧ _groupTemp (mute session time now1 now2 c) = _groupTemp c.
Proof.
  unfold mute.
  pose proof (getGroupLocks_messages (Session.guildId session) c) as H.
  pose proof (getGroupLocks_snd (Session.guildId session) c) as H'.
  destruct (_getGroupLocks (Session.guildId session) c) as [l c'].
  simpl in *. subst c'. done.
Qed.

Lemma step_sound (config : Config.t) (a : Action) (p : Process) :
  0 ≤ Config.maxMessages config →
  sound config p → ∃ p', step a p = Some p' ∧ sound config p'.
Proof.
  intros Hcap (Hcfg & Hb & Htasks).
  assert (0 ≤ Config.maxMessages (_config (collector p))) as Hcap'
    by (by rewrite Hcfg).
  destruct a as [m now|i now|session time now1 now2|session now|groupId
                 |filter|func]; simpl.
  - destruct (advance_safe now (body m) (safe_body m) (collector p) Hcap')
      as (c' & trace & task & -> & [Hcfg' Hkeep] & Htask).
    eexists. split; [done|]. split; [simpl; congruence|].
    split; [by apply Hkeep|]. simpl. apply Forall_app. by split; [|constructor].
  - destruct (tasks p !! i) as [task|] eqn:E; [|by exists p].
    assert (safe_task task) as Htask
      by (eapply Forall_lookup_1; [exact Htasks|exact E]).
    destruct (poll_safe now task (collector p) Htask Hcap')
      as (c' & trace & task' & -> & [Hcfg' Hkeep] & Htask').
    eexists. split; [done|]. split; [simpl; congruence|].
    split; [by apply Hkeep|]. simpl. by apply Forall_insert.
  - eexists. split; [done|].
    destruct (mute_messages session time now1 now2 (collector p))
      as (Hm & Hc & _).
    split; [simpl; congruence|]. split; [|done]. simpl.
    destruct (keeps_same_messages (collector p) _ Hm Hc) as [_ Hk].
    rewrite <- (app_nil_r (events p)). by apply Hk.
  - eexists. split; [done|]. rewrite isMute_eq. simpl.
    split; [done|]. split; [|done].
    destruct (keeps_withLock (Session.guildId session)
                (lockFlag (Session.guildId session) (collector p)) (collector p))
      as [_ Hk].
    rewrite <- (app_nil_r (events p)). by apply Hk.
  - eexists. split; [done|]. simpl.
    split; [by destruct groupId as [[|]|]|]. split; [|done].
    by apply bounded_clear.
  - eexists. split; [done|]. by split.
  - eexists. split; [done|]. by split.
Qed.

Lemma run_sound (config : Config.t) (schedule : list Action) :
  0 ≤ Config.maxMessages config →
  ∀ p, sound config p → ∃ p', run schedule p = Some p' ∧ sound config p'.
Proof.
  intros Hcap. induction schedule as [|a schedule IH]; intros p Hp; simpl.
  - by exists p.
  - destruct (step_sound config a p Hcap Hp) as (p1 & -> & Hp1). by apply IH.
Qed.

Lemma boot_sound (config : Config.t) : sound config (boot config).
Proof.
  split; [done|]. split; [|constructor]. intros groupId. simpl.
  unfold buffer, history, suffix. simpl. rewrite lookup_empty.
  by destruct (0 - capacity (new config))%nat.
Qed.

Lemma suffix_min {A} (n : nat) (l : list A) :
  suffix (Nat.min (length l) n) l = suffix n l.
Proof. unfold suffix. f_equal. lia. Qed.

(** Without [clear] the history of a group is all that was appended. *)
Lemma history_appended (groupId : jsstring) (log : list Event) :
  Forall notCleared log →
  ∀ past, foldl (history_step groupId) past log = past ++ appended groupId log.
Proof.
  induction 1 as [|e log He _ IH]; intros past; simpl.
  - by rewrite app_nil_r.
  - rewrite IH. unfold appended. destruct e; simpl; try done.
    case_decide; simpl; [by rewrite <- app_assoc|done].
Qed.

Lemma step_extends (config : Config.t) (a : Action) (p p' : Process) :
  0 ≤ Config.maxMessages config →
  sound config p → ¬ isClear a → step a p = Some p' →
  ∃ trace, events p' = events p ++ trace ∧ Forall notCleared trace.
Proof.
  intros Hcap (Hcfg & Hb & Htasks) Ha.
  assert (0 ≤ Config.maxMessages (_config (collector p))) as Hcap'
    by (by rewrite Hcfg).
  assert (events p = events p ++ [] ∧ Forall notCleared []) as Hsame
    by (by rewrite app_nil_r).
  destruct a as [m now|i now|session time now1 now2|session now|groupId
                 |filter|func]; simpl.
  - destruct (advance_safe now (body m) (safe_body m) (collector p) Hcap')
      as (c' & trace & task & -> & (_ & _ & Hn) & _).
    intros [= <-]. by exists trace.
  - destruct (tasks p !! i) as [task|] eqn:E; [|intros [= <-]; by exists []].
    assert (safe_task task) as Htask
      by (eapply Forall_lookup_1; [exact Htasks|exact E]).
    destruct (poll_safe now task (collector p) Htask Hcap')
      as (c' & trace & task' & -> & (_ & _ & Hn) & _).
    intros [= <-]. by exists trace.
  - intros [= <-]. by exists [].
  - intros [= <-]. by exists [].
  - by destruct Ha.
  - intros [= <-]. by exists [].
  - intros [= <-]. by exists [].
Qed.

Lemma run_extends (config : Config.t) (schedule : list Action) :
  0 ≤ Config.maxMessages config →
  Forall (λ a, ¬ isClear a) schedule →
  ∀ p p', sound config p → run schedule p = Some p' →
    ∃ trace, events p' = events p ++ trace ∧ Forall notCleared trace.
Proof.
  intros Hcap. induction 1 as [|a schedule Ha _ IH]; intros p p' Hp; simpl.
  - intros [= <-]. exists []. by rewrite app_nil_r.
  - destruct (step_sound config a p Hcap Hp) as (p1 & Hstep & Hp1).
    rewrite Hstep. intros Hrun.
    destruct (step_extends config a p p1 Hcap Hp Ha Hstep) as (t1 & H1 & Hn1).
    destruct (IH p1 p' Hp1 Hrun) as (t2 & H2 & Hn2).
    exists (t1 ++ t2). split; [by rewrite H2, H1, app_assoc|by apply Forall_app].
Qed.

(** Whatever the calls and however their timers interleave, with a capacity
    that is not negative every step completes, and the buffer of every
    group is the newest part of what the log says was pushed for it (counted
    from the last [clear] when the schedule has any). *)
Lemma buffers_follow_log (config : Config.t) (schedule : list Action) :
  0 ≤ Config.maxMessages config →
  ∃ p,
    run schedule (boot config) = Some p
    ∧ ∀ groupId,
        Z.of_nat (length (buffer groupId (collector p)))
        ≤ Config.maxMessages config
        ∧ buffer groupId (collector p)
          = suffix (Nat.min (length (history groupId (events p)))
                      (Z.to_nat (Config.maxMessages config)))
              (history groupId (events p))
        ∧ (Forall (λ a, ¬ isClear a) schedule →
           history groupId (events p) = appended groupId (events p)).
Proof.
  intros Hcap.
  destruct (run_sound config schedule Hcap (boot config) (boot_sound config))
    as (p & Hrun & Hcfg & Hb & _).
  exists p. split; [done|]. intros groupId.
  rewrite suffix_min. specialize (Hb groupId). unfold capacity in Hb.
  rewrite Hcfg in Hb. rewrite Hb. split; [|split; [done|]].
  - rewrite suffix_length. lia.
  - intros Hschedule.
    destruct (run_extends config schedule Hcap Hschedule (boot config) p
                (boot_sound config) Hrun) as (trace & Hev & Hn).
    simpl in Hev. rewrite Hev. unfold history.
    by rewrite (history_appended groupId trace Hn []).
Qed.

(** The end-to-end scenario of the specification: capacity 2, messages A, B
    and C broadcast in turn for "g1"; the buffer then holds B and C. *)
Example keeps_newest_two :
  let say (text : string) :=
    Session.mk false (lit "g1") (lit text) None
      (Author.mk (Some (lit "alice")) (Some (lit "1001"))) None noBot in
  let message (text : string) :=
    Message.mk (lit text) (Some (lit "alice")) (Some (lit "1001")) None in
  (p ← run [Invoke (Broadcast (say "A"%string)) 0; Fire 0 1; Fire 0 2;
            Invoke (Broadcast (say "B"%string)) 3; Fire 1 4; Fire 1 5;
            Invoke (Broadcast (say "C"%string)) 6; Fire 2 7; Fire 2 8]
         (boot (Config.mk 2));
   getMessages (lit "g1") (collector p))
  = Some [message "B"%string; message "C"%string].
Proof. vm_compute. reflexivity. Qed.

(** For a negative capacity the eviction never ends: the call hangs. *)
Lemma evict_negative (maxMessageSize : Z) (groupArray : list Message.t) :
  maxMessageSize < 0 → evict maxMessageSize groupArray = None.
Proof.
  intros Hneg. unfold evict.
  destruct (Z.gtb_spec (Z.of_nat (length groupArray)) maxMessageSize); [|lia].
  by apply shift_while_negative.
Qed.

Example broadcast_hangs_on_negative_capacity :
  call 1 0 (broadcast hello) (new (Config.mk (-1))) = None.
Proof. vm_compute. reflexivity. Qed.

Example whitespace_only_is_dropped :
  mapElementToString hello (lit "  ") [h.text (lit "  ")] = [].
Proof. reflexivity. Qed.

(** ** [broadcastOnBot], from call to settlement *)

Section BroadcastOnBotCall.
Variables (now : Z) (session : Session.t) (elements : list h.t)
          (c : MessageCollector).
Let groupId := Session.guildId session.
Let content := mapElementToString session (Session.content session) elements.
Let message := outgoingMessage session content.

Hypothesis group : Session.isDirect session = false.
Hypothesis free : lockFlag groupId c = false.

Lemma broadcastOnBot_call_blank :
  content = [] →
  call 2 now (broadcastOnBot session elements) c
  = Some (withLock groupId false c, [], Fulfilled None).
Proof.
  intros Hblank. unfold broadcastOnBot. rewrite group.
  destruct (call_section_returns now session
              (broadcastOnBot_section session elements)
              c (withLock groupId true c) [] None) as [_ ->]; try done.
  - unfold broadcastOnBot_section. fold content. by rewrite Hblank.
  - apply lockFlag_withLock.
  - by rewrite withLock_withLock.
Qed.

Hypothesis capacity : 0 ≤ Config.maxMessages (_config c).

Lemma broadcastOnBot_call :
  content ≠ [] →
  call 2 now (broadcastOnBot session elements) c
  = Some (withBuffer groupId
            (suffix (Z.to_nat (Config.maxMessages (_config c)))
               (buffer groupId c ++ [message]))
            (withLock groupId false c),
          [Pushed groupId message], Fulfilled None).
Proof.
  intros Hcontent. unfold broadcastOnBot. rewrite group.
  destruct (call_section_returns now session
              (broadcastOnBot_section session elements) c
              (withBuffer groupId
                 (suffix (Z.to_nat (Config.maxMessages (_config c)))
                    (buffer groupId c ++ [message]))
                 (withLock groupId true c))
              [Pushed groupId message] None) as [_ ->]; try done.
  - unfold broadcastOnBot_section.
    change (mapElementToString session (Session.content session) elements)
      with content.
    rewrite (length_lt_1_false _ Hcontent).
    change (_config (withLock groupId true c)) with (_config c).
    change (match _messages (withLock groupId true c) !! Session.guildId session
            with Some a => a | None => [] end) with (buffer groupId c).
    by rewrite evict_suffix.
  - apply (lockFlag_withLock groupId true c).
  - by rewrite withLock_withBuffer, withLock_withLock.
Qed.
End BroadcastOnBotCall.

Lemma withLock_id (groupId : jsstring) (c : MessageCollector) :
  _groupLocks c !! groupId ≠ None →
  withLock groupId (lockFlag groupId c) c = c.
Proof.
  intros Hsome. unfold withLock, lockFlag, muteUntil, set_groupLocks.
  destruct c as [ms ee fs gl gt cfg]; simpl in *.
  destruct (gl !! groupId) as [[l m]|] eqn:E; [|done]. simpl.
  by rewrite insert_id.
Qed.

Lemma lockFlag_true_record (groupId : jsstring) (c : MessageCollector) :
  lockFlag groupId c = true → _groupLocks c !! groupId ≠ None.
Proof. unfold lockFlag. by destruct (_groupLocks c !! groupId). Qed.

(** A call for a group whose flag is set waits in [_lock], and the collector
    stays as it was. *)
Lemma call_blocked (ticks : nat) (now : Z) (session : Session.t) (k : Async)
    (c : MessageCollector) :
  lockFlag (Session.guildId session) c = true →
  call ticks now (Await_lock session k) c
  = Some (c, [], Polling_lock (Session.guildId session) k).
Proof.
  intros Hheld. unfold call. rewrite advance_Await_lock.
  rewrite withLock_id by (by apply lockFlag_true_record).
  by rewrite polls_blocked.
Qed.

(** C7: a group message whose normalised content has length 0: [broadcast]
    takes the lock, releases it and returns; no buffer is changed, no filter
    and no listener is called. The same holds of [broadcastOnBot]. *)
Theorem empty_content_not_buffered (now : Z) (session : Session.t)
    (elements : list h.t) (c : MessageCollector) :
  let groupId := Session.guildId session in
  Session.isDirect session = false →
  lockFlag groupId c = false →
  (length (mapElementToString session (Session.content session)
             (incomingElements session)) = 0%nat →
   ∃ c', call 2 now (broadcast session) c = Some (c', [], Fulfilled None)
         ∧ _messages c' = _messages c ∧ lockFlag groupId c' = false)
  ∧ (length (mapElementToString session (Session.content session) elements)
     = 0%nat →
     ∃ c', call 2 now (broadcastOnBot session elements) c
           = Some (c', [], Fulfilled None)
           ∧ _messages c' = _messages c ∧ lockFlag groupId c' = false).
Proof.
  intros groupId Hgroup Hfree. split; intros Hlen; apply nil_length_inv in Hlen;
    exists (withLock groupId false c).
  - rewrite broadcast_call_blank by done.
    split; [done|]. split; [done|apply lockFlag_withLock].
  - rewrite broadcastOnBot_call_blank by done.
    split; [done|]. split; [done|apply lockFlag_withLock].
Qed.

Lemma empty_content_not_buffered_witness :
  ∃ c', call 2 0 (broadcast blank) (watched listening 10)
        = Some (c', [], Fulfilled None)
        ∧ _messages c' = _messages (watched listening 10)
        ∧ lockFlag (lit "g1") c' = false.
Proof.
  apply (empty_content_not_buffered 0 blank [] (watched listening 10));
    reflexivity.
Defined.




(** ** Listeners that fail *)

(** C3, as stated, fails: with a filter that matches and a listener that
    throws, [broadcast] rejects before it reaches [_unlock]; the flag of the
    group is still set when the call has settled. *)
Lemma throwing_listener_keeps_lock :
  ∃ c' trace,
    call 2 0 (broadcast hello) (watched throwing 10) = Some (c', trace, Rejected)
    ∧ ListenerCalled 0 hello (buffer (lit "g1") c') ∈ trace
    ∧ lockFlag (lit "g1") c' = true.
Proof.
  eexists _, _. rewrite (broadcast_call 0 hello (watched throwing 10));
    [|reflexivity|reflexivity|simpl; lia|vm_compute; congruence].
  split; [reflexivity|]. split; [|reflexivity].
  apply list_elem_of_lookup. exists 3%nat. vm_compute. reflexivity.
Qed.

(** C3 (amended): when [broadcast] dispatches, a listener whose promise
    rejects (or fulfils) does not stop the release: the call returns with the
    flag of the group clear. A listener that throws inside [emit] does: the
    exception leaves [broadcast] before [_unlock], the call rejects and the
    flag stays set, however long one waits. Either way the stored buffer is
    the one with the message appended. *)
Theorem listener_failure (now : Z) (session : Session.t)
    (c : MessageCollector) :
  let groupId := Session.guildId session in
  let content :=
    mapElementToString session (Session.content session)
      (incomingElements session) in
  let message := incomingMessage session content in
  let groupArray :=
    suffix (Z.to_nat (Config.maxMessages (_config c)))
      (buffer groupId c ++ [message]) in
  Session.isDirect session = false →
  0 ≤ Config.maxMessages (_config c) →
  lockFlag groupId c = false →
  content ≠ [] →
  someFilterMatches c session message →
  fst (isMute session now c) = false →
  ((∀ func, func ∈ _eventEmitter c →
      ∃ rejects, func session groupArray = ReturnsPromise rejects) →
   ∃ c' trace,
     call 2 now (broadcast session) c = Some (c', trace, Fulfilled None)
     ∧ lockFlag groupId c' = false
     ∧ buffer groupId c' = groupArray)
  ∧ ((∃ func, func ∈ _eventEmitter c ∧ func session groupArray = ThrowsError) →
     ∃ c' trace,
       (∀ ticks, call (S ticks) now (broadcast session) c
                 = Some (c', trace, Rejected))
       ∧ lockFlag groupId c' = true
       ∧ buffer groupId c' = groupArray).
Proof.
  intros groupId content message groupArray Hgroup Hcap Hfree Hcontent
    Hmatch Hunmuted.
  assert (fst (some (_filters c) session message)
          && negb (muteUntil groupId c >? now) = true) as Hgate.
  { rewrite isMute_eq in Hunmuted. cbn [fst] in Hunmuted. fold groupId in Hunmuted.
    rewrite Hunmuted. rewrite andb_true_r. unfold some.
    by apply some_from_true. }
  split.
  - intros Hpromise.
    assert (fst (emit (_eventEmitter c) session groupArray) = false) as Hquiet.
    { apply not_true_is_false. intros Hthrew.
      apply emit_threw in Hthrew as (func & Hin & Hthrows).
      destruct (Hpromise func Hin) as [rejects Hr]. congruence. }
    pose proof (broadcast_call now session c Hgroup Hfree Hcap Hcontent) as Hcall.
    cbv zeta in Hcall. fold groupId content message groupArray in Hcall.
    rewrite Hgate, Hquiet in Hcall.
    eexists _, _. split; [exact Hcall|].
    split; [apply (lockFlag_withLock groupId false c)|apply buffer_withBuffer].
  - intros Hthrows. apply emit_threw in Hthrows.
    pose proof (broadcast_section_eval now session c Hcap Hcontent) as Heval.
    cbv zeta in Heval. fold groupId content message groupArray in Heval.
    rewrite Hgate, Hthrows in Heval.
    eexists _, _. split; [|split].
    + intros ticks. unfold broadcast. rewrite Hgroup.
      by apply call_section_throws.
    + apply (lockFlag_withLock groupId true c).
    + apply buffer_withBuffer.
Qed.

Lemma listener_failure_witness :
  (∃ c' trace,
     call 2 0 (broadcast hello) (watched failing 10)
     = Some (c', trace, Fulfilled None)
     ∧ lockFlag (lit "g1") c' = false)
  ∧ (∃ c' trace,
       (∀ ticks, call (S ticks) 0 (broadcast hello) (watched throwing 10)
                 = Some (c', trace, Rejected))
       ∧ lockFlag (lit "g1") c' = true).
Proof.
  split.
  - destruct (proj1 (listener_failure 0 hello (watched failing 10)
      eq_refl ltac:(simpl; lia) eq_refl ltac:(vm_compute; congruence)
      ltac:(exists always; split; [left|reflexivity]) eq_refl))
      as (c' & trace & Hcall & Hflag & _).
    + intros func Hin. apply list_elem_of_singleton in Hin as ->. by exists true.
    + by exists c', trace.
  - destruct (proj2 (listener_failure 0 hello (watched throwing 10)
      eq_refl ltac:(simpl; lia) eq_refl ltac:(vm_compute; congruence)
      ltac:(exists always; split; [left|reflexivity]) eq_refl))
      as (c' & trace & Hcall & Hflag & _).
    + exists throwing. split; [left|reflexivity].
    + by exists c', trace.
Defined.

(** ** The mute window *)

Lemma mute_eq (session : Session.t) (time now1 now2 : Z) (c : MessageCollector) :
  mute session time now1 now2 c
  = set_groupLocks
      <[Session.guildId session :=
          GroupLock.mk (lockFlag (Session.guildId session) c)
            (if muteUntil (Session.guildId session) c <? now1
             then now2 + time
             else muteUntil (Session.guildId session) c + time)]> c.
Proof.
  unfold mute.
  pose proof (getGroupLocks_fst (Session.guildId session) c) as H1.
  pose proof (getGroupLocks_snd (Session.guildId session) c) as H2.
  destruct (_getGroupLocks (Session.guildId session) c) as [l c'].
  simpl in *. subst l c'. simpl.
  unfold set_groupLocks, withLock; simpl. by rewrite insert_insert_eq.
Qed.

Lemma muteUntil_mute (session : Session.t) (time now1 now2 : Z)
    (c : MessageCollector) :
  muteUntil (Session.guildId session) (mute session time now1 now2 c)
  = if muteUntil (Session.guildId session) c <? now1
    then now2 + time
    else muteUntil (Session.guildId session) c + time.
Proof.
  rewrite mute_eq. unfold muteUntil at 1. simpl. by rewrite lookup_insert_eq.
Qed.

Lemma lockFlag_mute (session : Session.t) (time now1 now2 : Z)
    (c : MessageCollector) :
  lockFlag (Session.guildId session) (mute session time now1 now2 c)
  = lockFlag (Session.guildId session) c.
Proof.
  rewrite mute_eq. unfold lockFlag at 1. simpl. by rewrite lookup_insert_eq.
Qed.

(** C6: [mute(session, d)] adds d to the group's mute-until timestamp when
    that timestamp is in the future, and sets it to now + d otherwise (the
    clock is read once for the test, [now1], and once more for the sum,
    [now2]; a timestamp equal to [now1] gives [now1 + d]); the timestamps of
    the other groups stay as they are. [isMute(session)] is true exactly
    when the timestamp is strictly greater than the current time. *)
Theorem mute_window (session : Session.t) (d now1 now2 now : Z)
    (c : MessageCollector) :
  let groupId := Session.guildId session in
  let c' := mute session d now1 now2 c in
  (now1 < muteUntil groupId c → muteUntil groupId c' = muteUntil groupId c + d)
  ∧ (muteUntil groupId c = now1 → muteUntil groupId c' = now1 + d)
  ∧ (muteUntil groupId c < now1 → muteUntil groupId c' = now2 + d)
  ∧ (∀ other, other ≠ groupId → muteUntil other c' = muteUntil other c)
  ∧ (fst (isMute session now c) = true ↔ now < muteUntil groupId c)
  ∧ (fst (isMute session now1 c') = true → fst (isMute session now1 c) = true →
     muteUntil groupId c' = muteUntil groupId c + d).
Proof.
  intros groupId c'. subst c' groupId. rewrite !isMute_eq. cbn [fst].
  rewrite !muteUntil_mute. set (groupId := Session.guildId session).
  destruct (Z.ltb_spec (muteUntil groupId c) now1).
  - split; [lia|]. split; [lia|]. split; [done|]. split; [|split].
    + intros other Hother. rewrite mute_eq. unfold muteUntil; simpl.
      by rewrite lookup_insert_ne.
    + rewrite Z.gtb_ltb, Z.ltb_lt. done.
    + rewrite !Z.gtb_ltb, !Z.ltb_lt. lia.
  - split; [done|]. split; [intros ->; done|]. split; [lia|]. split; [|split].
    + intros other Hother. rewrite mute_eq. unfold muteUntil; simpl.
      by rewrite lookup_insert_ne.
    + rewrite Z.gtb_ltb, Z.ltb_lt. done.
    + done.
Qed.

Lemma mute_window_witness :
  let c := mute hello 1000 5 5 (new (Config.mk 10)) in
  muteUntil (lit "g1") c = 1005
  ∧ muteUntil (lit "g1") (mute hello 1000 300 300 c) = 2005
  ∧ muteUntil (lit "g1") (mute hello 1000 2000 2001 c) = 3001.
Proof.
  intros c.
  split; [|split].
  - apply (proj1 (proj2 (proj2 (mute_window hello 1000 5 5 0
                                  (new (Config.mk 10)))))).
    reflexivity.
  - change 2005 with (muteUntil (lit "g1") c + 1000).
    apply (proj1 (mute_window hello 1000 300 300 0 c)). reflexivity.
  - apply (proj1 (proj2 (proj2 (mute_window hello 1000 2000 2001 0 c)))).
    reflexivity.
Defined.

(** ** The id of a buffered message *)

(** C9, where the code departs: a group message whose author has no id.
    [broadcast] buffers it with the id left undefined; '0' is not put in
    its place. Nothing is thrown: the call returns. *)
Theorem broadcast_missing_author_id :
  ∃ c' trace,
    call 2 0 (broadcast anonymous) (new (Config.mk 10))
    = Some (c', trace, Fulfilled None)
    ∧ getMessages (lit "g1") c'
      = Some [Message.mk (lit "hello") (Some (lit "alice")) None None]
    ∧ Message.id (incomingMessage anonymous (lit "hello")) ≠ Some (lit "0").
Proof.
  eexists _, _. rewrite (broadcast_call 0 anonymous (new (Config.mk 10)));
    [|reflexivity|reflexivity|simpl; lia|vm_compute; congruence].
  split; [reflexivity|]. split; [|done].
  vm_compute. reflexivity.
Qed.

(** The sibling path has the fallback: the id of a message buffered by
    [broadcastOnBot] is the bot's userId, else its selfId, else '0'. *)
Lemma broadcastOnBot_id (session : Session.t) (content : jsstring) :
  Message.id (outgoingMessage session content)
  = Some (match Bot.userId (Session.bot session) with
          | Some userId => userId
          | None =>
              match Bot.selfId (Session.bot session) with
              | Some selfId => selfId
              | None => lit "0"
              end
          end).
Proof. unfold outgoingMessage. simpl. by destruct (Bot.userId _). Qed.

(** The id [broadcast] stores is the author's, as it comes. *)
Lemma broadcast_id (session : Session.t) (content : jsstring) :
  Message.id (incomingMessage session content)
  = Author.userId (Session.author session).
Proof. done. Qed.

(** ** Who takes the lock *)

(** C10, as stated, fails for [mute] and [isMute]: while [updateTemp] is
    between [_lock] and [_unlock] for the group (flag set), [mute] rewrites
    the group's timestamp at once and [isMute] reads it. *)
Lemma mute_does_not_wait :
  ∃ c1 k,
    call 1 0 (updateTemp hello (GroupTemp.mk [])) (new (Config.mk 10))
    = Some (c1, [], Polling_unlock (lit "g1") k)
    ∧ lockFlag (lit "g1") c1 = true
    ∧ muteUntil (lit "g1") c1 = 0
    ∧ muteUntil (lit "g1") (mute hello 1000 5 5 c1) = 1005
    ∧ lockFlag (lit "g1") (mute hello 1000 5 5 c1) = true
    ∧ fst (isMute hello 5 (mute hello 1000 5 5 c1)) = true.
Proof.
  eexists _, _. split; [vm_compute; reflexivity|].
  repeat split; vm_compute; reflexivity.
Qed.

(** C10 (amended): [updateTemp] and [getTemp] take the lock of the group
    before they touch its temp data and release it afterwards: while the
    flag is set by someone else they wait and change nothing; once it is
    clear they set it, read or write the temp data, and clear it again.
    [mute] and [isMute] do not take the lock: they read and write the
    group's mute-until timestamp at once, whatever the flag, and leave the
    flag as it is. *)
Theorem temp_accessors_take_lock (now : Z) (session : Session.t)
    (temp : GroupTemp.t) (c : MessageCollector) :
  let groupId := Session.guildId session in
  let stored := _groupTemp c !! groupId ?? GroupTemp.mk [] in
  (lockFlag groupId c = true →
   ∀ ticks, ∃ k k',
     call ticks now (updateTemp session temp) c
     = Some (c, [], Polling_lock groupId k)
     ∧ call ticks now (getTemp session) c
       = Some (c, [], Polling_lock groupId k'))
  ∧ (lockFlag groupId c = false →
     (∃ c1 c2,
        call 1 now (updateTemp session temp) c
        = Some (c1, [], Polling_unlock groupId (Return None))
        ∧ lockFlag groupId c1 = true
        ∧ _groupTemp c1 = <[groupId := temp]> (_groupTemp c)
        ∧ call 2 now (updateTemp session temp) c
          = Some (c2, [], Fulfilled None)
        ∧ lockFlag groupId c2 = false
        ∧ _groupTemp c2 = <[groupId := temp]> (_groupTemp c))
     ∧ (∃ c1 c2,
          call 1 now (getTemp session) c
          = Some (c1, [], Polling_unlock groupId (Return (Some stored)))
          ∧ lockFlag groupId c1 = true
          ∧ _groupTemp c1 = <[groupId := stored]> (_groupTemp c)
          ∧ call 2 now (getTemp session) c
            = Some (c2, [], Fulfilled (Some stored))
          ∧ lockFlag groupId c2 = false
          ∧ _groupTemp c2 = <[groupId := stored]> (_groupTemp c)))
  ∧ (∀ d now1 now2,
       lockFlag groupId (mute session d now1 now2 c) = lockFlag groupId c
       ∧ _groupTemp (mute session d now1 now2 c) = _groupTemp c
       ∧ muteUntil groupId (mute session d now1 now2 c)
         = if muteUntil groupId c <? now1 then now2 + d
           else muteUntil groupId c + d)
  ∧ fst (isMute session now c) = (muteUntil groupId c >? now)
  ∧ lockFlag groupId (snd (isMute session now c)) = lockFlag groupId c.
Proof.
  intros groupId stored. split; [|split; [|split; [|split]]].
  - intros Hheld ticks. eexists _, _.
    unfold updateTemp, getTemp. by rewrite !call_blocked.
  - intros Hfree. split.
    + unfold updateTemp.
      destruct (call_section_returns now session
        (updateTemp_section session temp)
        c (set_groupTemp <[groupId := temp]> (withLock groupId true c))
        [] None Hfree eq_refl (lockFlag_withLock groupId true c))
        as [H1 H2].
      eexists _, _. split; [exact H1|].
      split; [apply (lockFlag_withLock groupId true)|]. split; [done|].
      split; [exact H2|].
      split; [apply (lockFlag_withLock groupId false)|done].
    + unfold getTemp.
      destruct (call_section_returns now session
        (getTemp_section session)
        c (set_groupTemp <[groupId := stored]> (withLock groupId true c))
        [] (Some stored) Hfree eq_refl (lockFlag_withLock groupId true c))
        as [H1 H2].
      eexists _, _. split; [exact H1|].
      split; [apply (lockFlag_withLock groupId true)|]. split; [done|].
      split; [exact H2|].
      split; [apply (lockFlag_withLock groupId false)|done].
  - intros d now1 now2. split; [apply lockFlag_mute|].
    split; [apply mute_messages|apply muteUntil_mute].
  - by rewrite isMute_eq.
  - rewrite isMute_eq. cbn [snd]. apply lockFlag_withLock.
Qed.

Lemma temp_accessors_take_lock_witness :
  (∃ c1 c2,
     call 1 0 (updateTemp hello (GroupTemp.mk [lit "draft"])) (new (Config.mk 10))
     = Some (c1, [], Polling_unlock (lit "g1") (Return None))
     ∧ lockFlag (lit "g1") c1 = true
     ∧ call 2 0 (updateTemp hello (GroupTemp.mk [lit "draft"])) (new (Config.mk 10))
       = Some (c2, [], Fulfilled None)
     ∧ lockFlag (lit "g1") c2 = false)
  ∧ ∀ ticks, ∃ k,
      call ticks 0 (getTemp hello) (withLock (lit "g1") true (new (Config.mk 10)))
      = Some (withLock (lit "g1") true (new (Config.mk 10)), [],
              Polling_lock (lit "g1") k).
Proof.
  split.
  - destruct (proj1 (proj1 (proj2 (temp_accessors_take_lock 0 hello
        (GroupTemp.mk [lit "draft"]) (new (Config.mk 10)))) eq_refl))
      as (c1 & c2 & H1 & H2 & _ & H3 & H4 & _).
    by exists c1, c2.
  - intros ticks.
    destruct (proj1 (temp_accessors_take_lock 0 hello (GroupTemp.mk [])
        (withLock (lit "g1") true (new (Config.mk 10)))) eq_refl ticks)
      as (k & k' & _ & H).
    by exists k'.
Defined.

(** * Further properties of the code *)

(** ** The normaliser: what is kept and what is dropped *)

Lemma trimEnd_nil (s : jsstring) :
  trimEnd s = [] ↔ Forall (λ ch, isWhiteSpace ch = true) s.
Proof.
  induction s as [|ch rest IH]; simpl.
  - split; [constructor|done].
  - destruct (trimEnd rest) as [|x r] eqn:E.
    + destruct (isWhiteSpace ch) eqn:Ew; split; try done.
      * intros _. constructor; [done|]. by apply IH.
      * intros H. apply Forall_cons in H as [H _]. congruence.
    + split; [done|]. intros H. apply Forall_cons in H as [_ H].
      by apply IH in H.
Qed.

Lemma mapElementToString_concat (session : Session.t) (content : jsstring)
    (elements : list h.t) :
  trimEnd content ≠ [] →
  mapElementToString session content elements
  = concat (map (λ element, join (mapElement session [] element)) elements).
Proof.
  intros Hraw. induction elements as [|element elements IH].
  - apply mapElementToString_nil.
  - change (element :: elements) with ([] ++ element :: elements).
    rewrite mapElementToString_split by done.
    rewrite mapElementToString_nil, IH. done.
Qed.

Lemma mapElement_other (session : Session.t) (element : h.t) :
  h.type element ≠ lit "text" → h.type element ≠ lit "at" →
  mapElement session [] element = [].
Proof. intros Ht Ha. unfold mapElement. by rewrite !decide_False. Qed.

(** X1: an element that is neither a text nor a mention (an image, a face,
    a file, ...) adds nothing: the output is the same as without it,
    whatever the raw text. *)
Theorem mapElementToString_other_kind (session : Session.t)
    (content : jsstring) (before after : list h.t) (element : h.t) :
  h.type element ≠ lit "text" →
  h.type element ≠ lit "at" →
  mapElementToString session content (before ++ element :: after)
  = mapElementToString session content (before ++ after).
Proof.
  intros Ht Ha. unfold mapElementToString.
  destruct (length (trimEnd content) <? 1)%nat; [done|]. f_equal.
  rewrite !foldl_app. simpl.
  by rewrite mapElement_acc, mapElement_other, app_nil_r.
Qed.

Lemma mapElementToString_other_kind_witness :
  mapElementToString hello (lit "hello")
    ([h.text (lit "a")] ++ h.mk (lit "img") (Attrs.mk [] None None)
                           :: [h.text (lit "b")])
  = lit "ab".
Proof.
  rewrite (mapElementToString_other_kind hello (lit "hello")
             [h.text (lit "a")] [h.text (lit "b")]
             (h.mk (lit "img") (Attrs.mk [] None None)));
    [reflexivity | vm_compute; congruence | vm_compute; congruence].
Defined.

Lemma mapElement_empty (session : Session.t) (element : h.t) :
  join (mapElement session [] element) = []
  ↔ h.type element ≠ lit "at"
    ∧ (h.type element = lit "text" →
       Forall (λ ch, isWhiteSpace ch = true) (Attrs.content (h.attrs element))).
Proof.
  rewrite <- trimEnd_nil.
  destruct (decide (h.type element = lit "text")) as [Ht|Ht].
  - rewrite mapElement_text by done.
    assert (h.type element ≠ lit "at") as Ha by (by rewrite Ht).
    destruct (trimEnd (Attrs.content (h.attrs element))) as [|x r] eqn:E; simpl.
    + by split.
    + split.
      * intros Hnil. rewrite Hnil in E. done.
      * intros [_ H]. by specialize (H Ht).
  - destruct (decide (h.type element = lit "at")) as [Ha|Ha].
    + rewrite mapElement_at by done. split; [done|]. by intros [H _].
    + rewrite mapElement_other by done. by split.
Qed.

(** X2: the output is empty exactly when the raw text is white space only
    (or empty), or when no element is a mention or a text with something
    other than white space in it. These are the messages both broadcasts
    drop. *)
Theorem mapElementToString_empty (session : Session.t) (content : jsstring)
    (elements : list h.t) :
  mapElementToString session content elements = []
  ↔ Forall (λ ch, isWhiteSpace ch = true) content
    ∨ Forall (λ element,
                h.type element ≠ lit "at"
                ∧ (h.type element = lit "text" →
                   Forall (λ ch, isWhiteSpace ch = true)
                     (Attrs.content (h.attrs element)))) elements.
Proof.
  rewrite <- trimEnd_nil.
  destruct (decide (trimEnd content = [])) as [Hblank|Hraw].
  - split; [by left|]. intros _. apply mapElementToString_blank.
    by rewrite Hblank.
  - rewrite mapElementToString_concat by done. split.
    + intros Hnil. right. induction elements as [|element elements IH];
        [constructor|].
      simpl in Hnil. apply app_eq_nil in Hnil as [H1 H2].
      constructor; [exact (proj1 (mapElement_empty session element) H1)|].
      by apply IH.
    + intros [H|H]; [done|].
      induction H as [|element elements He _ IH]; [done|]. simpl.
      rewrite IH. by rewrite (proj2 (mapElement_empty session element) He).
Qed.

(** ** [clear] *)

(** X3: [clear(groupId)] with a non-empty id leaves that group with an empty
    buffer (an array, not [undefined]) and every other buffer as it was;
    [clear()] and [clear('')] leave no buffer at all, so [getMessages]
    answers [undefined] for every group. Neither touches the lock flags, the
    mute timestamps, the temp data, the filters or the listeners, and
    neither waits for a lock. *)
Theorem clear_buffers (groupId : jsstring) (c : MessageCollector) :
  (groupId ≠ [] →
   getMessages groupId (clear (Some groupId) c) = Some []
   ∧ ∀ other, other ≠ groupId →
       getMessages other (clear (Some groupId) c) = getMessages other c)
  ∧ (∀ other, getMessages other (clear None c) = None
              ∧ getMessages other (clear (Some []) c) = None)
  ∧ ∀ arg, _groupLocks (clear arg c) = _groupLocks c
           ∧ _groupTemp (clear arg c) = _groupTemp c
           ∧ _filters (clear arg c) = _filters c
           ∧ _eventEmitter (clear arg c) = _eventEmitter c
           ∧ _config (clear arg c) = _config c.
Proof.
  split; [|split].
  - intros Hne. destruct groupId as [|ch rest]; [done|].
    unfold getMessages, clear. simpl. split; [by rewrite lookup_insert_eq|].
    intros other Hother. by rewrite lookup_insert_ne.
  - intros other. unfold getMessages, clear. simpl. by rewrite lookup_empty.
  - by intros [[|ch rest]|].
Qed.

Lemma clear_buffers_witness :
  getMessages (lit "g1") (clear (Some (lit "g1")) (new (Config.mk 10))) = Some []
  ∧ getMessages (lit "g1") (clear None (new (Config.mk 10))) = None.
Proof.
  split.
  - apply (proj1 (clear_buffers (lit "g1") (new (Config.mk 10)))).
    vm_compute. congruence.
  - apply (proj1 (proj2 (clear_buffers (lit "g1") (new (Config.mk 10))))).
Defined.

(** ** [_getGroupLocks] *)

(** X4: the lock record of a group is made on first use, unlocked and never
    muted; asking again gives the same record and changes nothing; the
    records of the other groups, and a record that was there already, are
    never altered. *)
Theorem getGroupLocks_get_or_create (groupId : jsstring) (c : MessageCollector) :
  let first := _getGroupLocks groupId c in
  (_groupLocks c !! groupId = None → fst first = GroupLock.mk false 0)
  ∧ _groupLocks (snd first) !! groupId = Some (fst first)
  ∧ _getGroupLocks groupId (snd first) = first
  ∧ (∀ groupLock, _groupLocks c !! groupId = Some groupLock →
       first = (groupLock, c))
  ∧ ∀ other, other ≠ groupId →
      _groupLocks (snd first) !! other = _groupLocks c !! other.
Proof.
  unfold _getGroupLocks.
  destruct (_groupLocks c !! groupId) as [groupLock|] eqn:E; simpl.
  - rewrite E. repeat split; try done. by intros ? [= ->].
  - rewrite lookup_insert_eq. repeat split; try done.
    intros other Hother. by rewrite lookup_insert_ne.
Qed.

(** ** The mute window, over time *)

Lemma isMute_fst (session : Session.t) (now : Z) (c : MessageCollector) :
  fst (isMute session now c) = (muteUntil (Session.guildId session) c >? now).
Proof. by rewrite isMute_eq. Qed.

(** X5: a group that is not muted at time [now] and is muted then for [d]
    is muted at every time before [now + d] and at no time from [now + d]
    on (one clock reading for the whole call of [mute]). A group nobody
    ever muted is not muted at any time from 0 on. *)
Theorem mute_expires (session : Session.t) (d now t : Z)
    (c : MessageCollector) :
  (fst (isMute session now c) = false →
   (fst (isMute session t (mute session d now now c)) = true ↔ t < now + d))
  ∧ (_groupLocks c !! Session.guildId session = None → 0 ≤ t →
     fst (isMute session t c) = false).
Proof.
  rewrite !isMute_fst, muteUntil_mute. split.
  - intros Hun. rewrite Z.gtb_ltb in Hun. apply Z.ltb_ge in Hun.
    rewrite Z.gtb_ltb, Z.ltb_lt.
    destruct (Z.ltb_spec (muteUntil (Session.guildId session) c) now); lia.
  - intros Hnone Ht. unfold muteUntil. rewrite Hnone.
    rewrite Z.gtb_ltb. apply Z.ltb_ge. lia.
Qed.

Lemma mute_expires_witness :
  (fst (isMute hello 1004 (mute hello 1000 5 5 (new (Config.mk 10)))) = true
   ↔ 1004 < 5 + 1000)
  ∧ fst (isMute hello 7 (new (Config.mk 10))) = false.
Proof.
  split.
  - apply (proj1 (mute_expires hello 1000 5 1004 (new (Config.mk 10)))).
    reflexivity.
  - apply (proj2 (mute_expires hello 1000 5 7 (new (Config.mk 10))));
      [reflexivity | lia].
Defined.

(** X6: muting twice. A second [mute] that comes while the group is still
    muted adds its duration to the end of the window, so the window ends at
    the first end plus [d2]; one that comes after the window has run out
    starts afresh from its own clock reading. With durations that are not
    negative and a clock that does not run backwards, [mute] never brings
    the end of the window forward. *)
Theorem mute_twice (session : Session.t) (d1 d2 t1 t2 : Z)
    (c : MessageCollector) :
  let groupId := Session.guildId session in
  let once := mute session d1 t1 t1 c in
  let twice := mute session d2 t2 t2 once in
  (t2 < muteUntil groupId once →
   muteUntil groupId twice = muteUntil groupId once + d2)
  ∧ (muteUntil groupId once < t2 → muteUntil groupId twice = t2 + d2)
  ∧ (0 ≤ d2 → muteUntil groupId once ≤ muteUntil groupId twice).
Proof.
  intros groupId once twice. subst twice groupId.
  rewrite (muteUntil_mute session d2 t2 t2 once).
  destruct (Z.ltb_spec (muteUntil (Session.guildId session) once) t2);
    repeat split; lia.
Qed.

Lemma mute_twice_witness :
  let once := mute hello 1000 5 5 (new (Config.mk 10)) in
  muteUntil (lit "g1") (mute hello 500 100 100 once) = 1505
  ∧ muteUntil (lit "g1") (mute hello 500 2000 2000 once) = 2500.
Proof.
  intros once. split.
  - change 1505 with (muteUntil (lit "g1") once + 500).
    apply (proj1 (mute_twice hello 1000 500 5 100 (new (Config.mk 10)))).
    reflexivity.
  - apply (proj1 (proj2 (mute_twice hello 1000 500 5 2000 (new (Config.mk 10))))).
    reflexivity.
Defined.

Lemma getGroupLocks_get_or_create_witness :
  fst (_getGroupLocks (lit "g1") (new (Config.mk 10))) = GroupLock.mk false 0.
Proof.
  apply (proj1 (getGroupLocks_get_or_create (lit "g1") (new (Config.mk 10)))).
  reflexivity.
Defined.

(** ** The temp data *)

Lemma withLock_set_groupTemp (groupId : jsstring) (b b' : bool)
    (f : gmap jsstring GroupTemp.t → gmap jsstring GroupTemp.t)
    (c : MessageCollector) :
  withLock groupId b (set_groupTemp f (withLock groupId b' c))
  = set_groupTemp f (withLock groupId b c).
Proof.
  unfold withLock, set_groupTemp, set_groupLocks, muteUntil. simpl.
  by rewrite lookup_insert_eq, insert_insert_eq.
Qed.

Lemma updateTemp_call (now : Z) (session : Session.t) (temp : GroupTemp.t)
    (c : MessageCollector) :
  lockFlag (Session.guildId session) c = false →
  call 2 now (updateTemp session temp) c
  = Some (set_groupTemp <[Session.guildId session := temp]>
            (withLock (Session.guildId session) false c),
          [], Fulfilled None).
Proof.
  intros Hfree. unfold updateTemp.
  destruct (call_section_returns now session (updateTemp_section session temp)
    c (set_groupTemp <[Session.guildId session := temp]>
         (withLock (Session.guildId session) true c))
    [] None Hfree eq_refl (lockFlag_withLock _ true c)) as [_ ->].
  by rewrite withLock_set_groupTemp.
Qed.

Lemma getTemp_call (now : Z) (session : Session.t) (c : MessageCollector) :
  lockFlag (Session.guildId session) c = false →
  call 2 now (getTemp session) c
  = Some (set_groupTemp
            <[Session.guildId session :=
                _groupTemp c !! Session.guildId session ?? GroupTemp.mk []]>
            (withLock (Session.guildId session) false c),
          [],
          Fulfilled (Some (_groupTemp c !! Session.guildId session
                             ?? GroupTemp.mk []))).
Proof.
  intros Hfree. unfold getTemp.
  destruct (call_section_returns now session (getTemp_section session)
    c (set_groupTemp
         <[Session.guildId session :=
             _groupTemp c !! Session.guildId session ?? GroupTemp.mk []]>
         (withLock (Session.guildId session) true c))
    [] (Some (_groupTemp c !! Session.guildId session ?? GroupTemp.mk []))
    Hfree eq_refl (lockFlag_withLock _ true c)) as [_ ->].
  by rewrite withLock_set_groupTemp.
Qed.

Lemma getTemp_stored (now : Z) (session : Session.t) (temp : GroupTemp.t)
    (c : MessageCollector) :
  lockFlag (Session.guildId session) c = false →
  _groupLocks c !! Session.guildId session ≠ None →
  _groupTemp c !! Session.guildId session = Some temp →
  call 2 now (getTemp session) c = Some (c, [], Fulfilled (Some temp)).
Proof.
  intros Hfree Hrecord Hstored. rewrite getTemp_call by done.
  rewrite Hstored. simpl. rewrite <- Hfree at 1.
  rewrite withLock_id by done.
  destruct c as [ms ee fs gl gt cfg]. unfold set_groupTemp. simpl in *.
  by rewrite insert_id.
Qed.

(** X7: what [updateTemp] stored for a group, [getTemp] hands back: the two
    calls, one after the other on a group whose lock is free, both return,
    the second with the temp data of the first; the second changes nothing
    in the collector, and the first changes neither a buffer nor the temp
    data of another group. (Neither looks at [isDirect].) *)
Theorem temp_round_trip (now now' : Z) (session session' : Session.t)
    (temp : GroupTemp.t) (c : MessageCollector) :
  Session.guildId session' = Session.guildId session →
  lockFlag (Session.guildId session) c = false →
  ∃ c1,
    call 2 now (updateTemp session temp) c = Some (c1, [], Fulfilled None)
    ∧ call 2 now' (getTemp session') c1 = Some (c1, [], Fulfilled (Some temp))
    ∧ _messages c1 = _messages c
    ∧ ∀ other, other ≠ Session.guildId session →
        _groupTemp c1 !! other = _groupTemp c !! other.
Proof.
  intros Hsame Hfree. eexists. split; [by apply updateTemp_call|].
  split; [|split; [done|]].
  - apply getTemp_stored; rewrite Hsame.
    + apply (lockFlag_withLock _ false c).
    + simpl. by rewrite lookup_insert_eq.
    + simpl. by rewrite lookup_insert_eq.
  - intros other Hother. simpl. by rewrite lookup_insert_ne.
Qed.

Lemma temp_round_trip_witness :
  ∃ c1,
    call 2 0 (updateTemp hello (GroupTemp.mk [lit "draft"])) (new (Config.mk 10))
    = Some (c1, [], Fulfilled None)
    ∧ call 2 9 (getTemp direct) c1
      = Some (c1, [], Fulfilled (Some (GroupTemp.mk [lit "draft"]))).
Proof.
  destruct (temp_round_trip 0 9 hello direct (GroupTemp.mk [lit "draft"])
              (new (Config.mk 10)) eq_refl eq_refl)
    as (c1 & H1 & H2 & _).
  by exists c1.
Defined.

(** X8: [getTemp] on a group without temp data answers the empty default
    [{completionMessages: []}] and stores it; whatever it answers, asking
    again gives the same answer and changes nothing any more. No buffer is
    touched, and the lock is free again after each call. *)
Theorem getTemp_default (now now' : Z) (session : Session.t)
    (c : MessageCollector) :
  lockFlag (Session.guildId session) c = false →
  ∃ c1 temp,
    call 2 now (getTemp session) c = Some (c1, [], Fulfilled (Some temp))
    ∧ (_groupTemp c !! Session.guildId session = None →
       temp = GroupTemp.mk [])
    ∧ (∀ stored, _groupTemp c !! Session.guildId session = Some stored →
       temp = stored)
    ∧ _groupTemp c1 !! Session.guildId session = Some temp
    ∧ call 2 now' (getTemp session) c1 = Some (c1, [], Fulfilled (Some temp))
    ∧ _messages c1 = _messages c
    ∧ lockFlag (Session.guildId session) c1 = false.
Proof.
  intros Hfree. eexists _, _. split; [by apply getTemp_call|].
  split; [by intros ->|]. split; [by intros stored ->|].
  split; [simpl; by rewrite lookup_insert_eq|].
  split; [|split; [done|apply (lockFlag_withLock _ false c)]].
  apply getTemp_stored.
  - apply (lockFlag_withLock _ false c).
  - simpl. by rewrite lookup_insert_eq.
  - simpl. by rewrite lookup_insert_eq.
Qed.

Lemma getTemp_default_witness :
  ∃ c1,
    call 2 0 (getTemp hello) (new (Config.mk 10))
    = Some (c1, [], Fulfilled (Some (GroupTemp.mk [])))
    ∧ call 2 5 (getTemp hello) c1
      = Some (c1, [], Fulfilled (Some (GroupTemp.mk []))).
Proof.
  destruct (getTemp_default 0 5 hello (new (Config.mk 10)) eq_refl)
    as (c1 & temp & H1 & Hdefault & _ & _ & H2 & _).
  rewrite (Hdefault eq_refl) in H1, H2. by exists c1.
Defined.

(** ** What a broadcast leaves alone *)

Lemma broadcast_outcome (now : Z) (session : Session.t) (c : MessageCollector) :
  Session.isDirect session = false →
  lockFlag (Session.guildId session) c = false →
  0 ≤ Config.maxMessages (_config c) →
  ∃ c' trace task,
    call 2 now (broadcast session) c = Some (c', trace, task)
    ∧ (c' = withLock (Session.guildId session) false c
       ∨ ∃ b groupArray,
           c' = withBuffer (Session.guildId session) groupArray
                  (withLock (Session.guildId session) b c)).
Proof.
  intros Hgroup Hfree Hcap.
  destruct (decide (mapElementToString session (Session.content session)
                      (incomingElements session) = [])) as [Hblank|Hcontent].
  - eexists _, _, _. split; [by apply broadcast_call_blank|by left].
  - pose proof (broadcast_call now session c Hgroup Hfree Hcap Hcontent) as H.
    cbv zeta in H. rewrite H.
    destruct (fst (some _ _ _) && negb _); [destruct (fst (emit _ _ _))|];
      eexists _, _, _; (split; [done|]); right; by eexists _, _.
Qed.

Lemma broadcastOnBot_outcome (now : Z) (session : Session.t)
    (elements : list h.t) (c : MessageCollector) :
  Session.isDirect session = false →
  lockFlag (Session.guildId session) c = false →
  0 ≤ Config.maxMessages (_config c) →
  ∃ c' trace,
    call 2 now (broadcastOnBot session elements) c
    = Some (c', trace, Fulfilled None)
    ∧ (c' = withLock (Session.guildId session) false c
       ∨ ∃ groupArray,
           c' = withBuffer (Session.guildId session) groupArray
                  (withLock (Session.guildId session) false c)).
Proof.
  intros Hgroup Hfree Hcap.
  destruct (decide (mapElementToString session (Session.content session)
                      elements = [])) as [Hblank|Hcontent].
  - eexists _, _. split; [by apply broadcastOnBot_call_blank|by left].
  - eexists _, _. split; [by apply broadcastOnBot_call|]. right. by eexists.
Qed.

(** X9: a broadcast for one group, incoming or the bot's own, touches
    nothing of another group (buffer, lock record) and, of its own group,
    only the buffer and the lock flag: the mute timestamp, the temp data,
    the filters, the listeners and the configuration are as before. *)
Theorem broadcast_frame (now : Z) (session : Session.t) (elements : list h.t)
    (c : MessageCollector) :
  let groupId := Session.guildId session in
  let untouched c' :=
    (∀ other, other ≠ groupId →
       getMessages other c' = getMessages other c
       ∧ _groupLocks c' !! other = _groupLocks c !! other)
    ∧ muteUntil groupId c' = muteUntil groupId c
    ∧ _groupTemp c' = _groupTemp c
    ∧ _filters c' = _filters c
    ∧ _eventEmitter c' = _eventEmitter c
    ∧ _config c' = _config c in
  Session.isDirect session = false →
  lockFlag groupId c = false →
  0 ≤ Config.maxMessages (_config c) →
  ∃ c1 c2 trace1 trace2 task,
    call 2 now (broadcast session) c = Some (c1, trace1, task)
    ∧ call 2 now (broadcastOnBot session elements) c
      = Some (c2, trace2, Fulfilled None)
    ∧ untouched c1 ∧ untouched c2.
Proof.
  intros groupId untouched Hgroup Hfree Hcap.
  assert (∀ b, untouched (withLock groupId b c)) as Hlock.
  { intros b. split; [|split; [apply muteUntil_withLock|done]].
    intros other Hother. split; [done|]. simpl. by rewrite lookup_insert_ne. }
  assert (∀ b groupArray, untouched (withBuffer groupId groupArray
                                       (withLock groupId b c))) as Hbuffer.
  { intros b groupArray.
    split; [|split; [apply (muteUntil_withLock groupId b c)|done]].
    intros other Hother. unfold getMessages. simpl.
    by rewrite !lookup_insert_ne. }
  destruct (broadcast_outcome now session c Hgroup Hfree Hcap)
    as (c1 & trace1 & task & H1 & Hc1).
  destruct (broadcastOnBot_outcome now session elements c Hgroup Hfree Hcap)
    as (c2 & trace2 & H2 & Hc2).
  exists c1, c2, trace1, trace2, task. split; [done|]. split; [done|]. split.
  - destruct Hc1 as [->|(b & groupArray & ->)]; auto.
  - destruct Hc2 as [->|(groupArray & ->)]; auto.
Qed.

Lemma broadcast_frame_witness :
  ∃ c1 trace1 task,
    call 2 0 (broadcast hello) (watched listening 10) = Some (c1, trace1, task)
    ∧ getMessages (lit "g2") c1 = getMessages (lit "g2") (watched listening 10)
    ∧ _groupTemp c1 = _groupTemp (watched listening 10).
Proof.
  destruct (broadcast_frame 0 hello [] (watched listening 10))
    as (c1 & c2 & trace1 & trace2 & task & H1 & _ & (Hother & _ & Htemp & _) & _).
  - reflexivity.
  - reflexivity.
  - simpl. lia.
  - exists c1, trace1, task. split; [exact H1|]. split; [|exact Htemp].
    apply (Hother (lit "g2")). vm_compute. congruence.
Defined.

(** ** The newest entry *)

Lemma suffix_snoc_last {A} (n : nat) (l : list A) (x : A) :
  (1 ≤ n)%nat → last (suffix n (l ++ [x])) = Some x.
Proof.
  intros Hn. unfold suffix. rewrite length_app. simpl.
  rewrite drop_app_le by lia. apply last_snoc.
Qed.

Lemma suffix_0 {A} (l : list A) : suffix 0 l = [].
Proof.
  unfold suffix. rewrite Nat.sub_0_r. apply drop_all.
Qed.

(** X10: after [broadcast] has buffered a message, [getMessages] answers an
    array for the group, never [undefined]; with a capacity of at least 1
    its last entry is that message, so a dispatch hands the listeners a
    buffer that ends with the message that caused it; with capacity 0 the
    array is empty, and it is the empty array that a dispatch hands over. *)
Theorem broadcast_newest_last (now : Z) (session : Session.t)
    (c : MessageCollector) :
  let groupId := Session.guildId session in
  let content :=
    mapElementToString session (Session.content session)
      (incomingElements session) in
  let message := incomingMessage session content in
  Session.isDirect session = false →
  0 ≤ Config.maxMessages (_config c) →
  lockFlag groupId c = false →
  content ≠ [] →
  ∃ c' trace task groupArray,
    call 2 now (broadcast session) c = Some (c', trace, task)
    ∧ getMessages groupId c' = Some groupArray
    ∧ (1 ≤ Config.maxMessages (_config c) → last groupArray = Some message)
    ∧ (Config.maxMessages (_config c) = 0 → groupArray = [])
    ∧ ∀ s messages, Emitted s messages ∈ trace → messages = groupArray.
Proof.
  intros groupId content message Hgroup Hcap Hfree Hcontent.
  pose proof (broadcast_call now session c Hgroup Hfree Hcap Hcontent) as Hcall.
  cbv zeta in Hcall. fold groupId content message in Hcall.
  set (groupArray := suffix _ _) in *.
  assert (∀ b, getMessages groupId
                 (withBuffer groupId groupArray (withLock groupId b c))
               = Some groupArray) as Hget.
  { intros b. unfold getMessages. simpl. by rewrite lookup_insert_eq. }
  assert ((1 ≤ Config.maxMessages (_config c) → last groupArray = Some message)
          ∧ (Config.maxMessages (_config c) = 0 → groupArray = [])) as [Hl H0].
  { split.
    - intros H1. apply suffix_snoc_last. lia.
    - intros Hzero. unfold groupArray. rewrite Hzero. apply suffix_0. }
  assert (∀ rest s messages,
            Forall (λ e, ∀ s' b, e = Emitted s' b → b = groupArray) rest →
            Emitted s messages ∈ Pushed groupId message
                                  :: snd (some (_filters c) session message)
                                     ++ rest →
            messages = groupArray) as Hem.
  { intros rest s messages Hrest Hin.
    apply elem_of_cons in Hin as [Hin|Hin]; [done|].
    apply elem_of_app in Hin as [Hin|Hin].
    - by apply some_from_calls in Hin as [j Hj].
    - rewrite Forall_forall in Hrest. by apply (Hrest _ Hin s messages). }
  assert (Forall (λ e, ∀ s' b, e = Emitted s' b → b = groupArray)
            (snd (emit (_eventEmitter c) session groupArray))) as Hdel.
  { unfold emit.
    pose proof (emit_from_deliveries (_eventEmitter c) session groupArray 0) as H.
    destruct (emit_from 0 (_eventEmitter c) session groupArray) as [threw tr].
    simpl in *. constructor; [by intros s' b [= _ <-]|].
    apply Forall_forall. intros e He s' b ->. by destruct (H _ He). }
  destruct (fst (some (_filters c) session message)
            && negb (muteUntil groupId c >? now));
    [destruct (fst (emit (_eventEmitter c) session groupArray))|];
    eexists _, _, _, groupArray; (split; [exact Hcall|]);
    (split; [apply Hget|]); (split; [exact Hl|]); (split; [exact H0|]).
  - intros s messages. by apply Hem.
  - intros s messages. by apply Hem.
  - intros s messages Hin. apply (Hem [] s messages); [constructor|].
    by rewrite app_nil_r.
Qed.

Lemma broadcast_newest_last_witness :
  ∃ c' trace task groupArray,
    call 2 0 (broadcast hello) (watched listening 0) = Some (c', trace, task)
    ∧ getMessages (lit "g1") c' = Some groupArray
    ∧ groupArray = [].
Proof.
  destruct (broadcast_newest_last 0 hello (watched listening 0))
    as (c' & trace & task & groupArray & Hcall & Hget & _ & H0 & _).
  - reflexivity.
  - simpl. lia.
  - reflexivity.
  - vm_compute. congruence.
  - exists c', trace, task, groupArray.
    split; [exact Hcall|]. split; [exact Hget|]. apply H0. reflexivity.
Defined.

(** ** A negative capacity *)

(** X11: with a negative [maxMessages] a broadcast of a message with
    non-empty content never comes back: once it has the lock, the eviction
    loop shifts the array empty and goes on for ever (nothing is stored, no
    listener is called, the process hangs). A message with empty content
    still returns, as the loop is not reached. *)
Theorem negative_capacity_hangs (now : Z) (session : Session.t)
    (elements : list h.t) (c : MessageCollector) (ticks : nat) :
  Config.maxMessages (_config c) < 0 →
  Session.isDirect session = false →
  lockFlag (Session.guildId session) c = false →
  (mapElementToString session (Session.content session)
     (incomingElements session) ≠ [] →
   call (S ticks) now (broadcast session) c = None)
  ∧ (mapElementToString session (Session.content session) elements ≠ [] →
     call (S ticks) now (broadcastOnBot session elements) c = None)
  ∧ (mapElementToString session (Session.content session)
       (incomingElements session) = [] →
     call 2 now (broadcast session) c
     = Some (withLock (Session.guildId session) false c, [], Fulfilled None)).
Proof.
  intros Hneg Hgroup Hfree.
  assert (∀ section,
            section now (withLock (Session.guildId session) true c) = Hangs →
            call (S ticks) now (Await_lock session (Do section)) c = None)
    as Hhang.
  { intros section Hsection. unfold call. rewrite advance_Await_lock, Hfree.
    cbn [polls poll]. rewrite lockFlag_withLock. cbn [negb].
    rewrite setLockFlag_withLock. cbn [advance]. by rewrite Hsection. }
  split; [|split].
  - intros Hcontent. unfold broadcast. rewrite Hgroup. apply Hhang.
    unfold broadcast_section. rewrite (length_lt_1_false _ Hcontent).
    by rewrite evict_negative.
  - intros Hcontent. unfold broadcastOnBot. rewrite Hgroup. apply Hhang.
    unfold broadcastOnBot_section. rewrite (length_lt_1_false _ Hcontent).
    by rewrite evict_negative.
  - intros Hblank. by apply broadcast_call_blank.
Qed.

Lemma negative_capacity_hangs_witness :
  call 3 0 (broadcast hello) (watched listening (-1)) = None
  ∧ call 2 0 (broadcast blank) (watched listening (-1))
    = Some (withLock (lit "g1") false (watched listening (-1)), [],
            Fulfilled None).
Proof.
  destruct (negative_capacity_hangs 0 hello [] (watched listening (-1)) 2)
    as (H1 & _ & _); [simpl; lia | reflexivity | reflexivity |].
  destruct (negative_capacity_hangs 0 blank [] (watched listening (-1)) 2)
    as (_ & _ & H3); [simpl; lia | reflexivity | reflexivity |].
  split; [apply H1; vm_compute; congruence | apply H3; reflexivity].
Defined.

(** ** The order of the calls *)

Lemma some_from_order (filters : list MessageCollectorFilter)
    (session : Session.t) (message : Message.t) :
  ∀ i, ∃ n,
    snd (some_from i filters session message)
    = map (λ j, FilterCalled j session message) (seq i n)
    ∧ (n ≤ length filters)%nat
    ∧ (∀ j func, (S j < n)%nat → filters !! j = Some func →
         func session message = false)
    ∧ (fst (some_from i filters session message) = true →
       ∃ last, (n = S last) ∧ ∃ func, filters !! last = Some func
                                      ∧ func session message = true)
    ∧ (fst (some_from i filters session message) = false →
       n = length filters).
Proof.
  induction filters as [|func rest IH]; intros i; simpl.
  - exists 0%nat. repeat split; try done; try lia.
  - destruct (func session message) eqn:E; simpl.
    + exists 1%nat. repeat split; try done; try lia.
      intros _. exists 0%nat. split; [done|]. by exists func.
    + destruct (IH (S i)) as (n & Hcalls & Hlen & Hbefore & Hmatch & Hnone).
      destruct (some_from (S i) rest session message) as [found trace].
      simpl in *. exists (S n). rewrite Hcalls. repeat split; try done; try lia.
      * intros [|j] f Hj Hf; simpl in Hf; [congruence|].
        apply (Hbefore j f); [lia|done].
      * intros Hfound. destruct (Hmatch Hfound) as (last & -> & f & Hf & Hm).
        exists (S last). split; [done|]. by exists f.
      * intros Hfound. by rewrite (Hnone Hfound).
Qed.

Lemma emit_from_order (listeners : list Listener) (session : Session.t)
    (messages : list Message.t) :
  ∀ i, ∃ n,
    snd (emit_from i listeners session messages)
    = map (λ j, ListenerCalled j session messages) (seq i n)
    ∧ (∀ j func, (S j < n)%nat → listeners !! j = Some func →
         func session messages ≠ ThrowsError)
    ∧ (fst (emit_from i listeners session messages) = false →
       n = length listeners)
    ∧ (fst (emit_from i listeners session messages) = true →
       ∃ last, n = S last ∧ ∃ func, listeners !! last = Some func
                                    ∧ func session messages = ThrowsError).
Proof.
  induction listeners as [|func rest IH]; intros i; simpl.
  - exists 0%nat. repeat split; try done; lia.
  - destruct (func session messages) eqn:E; simpl.
    + destruct (IH (S i)) as (n & Hcalls & Hbefore & Hall & Hthrew).
      destruct (emit_from (S i) rest session messages) as [threw trace].
      simpl in *. exists (S n). rewrite Hcalls. repeat split; try done.
      * intros [|j] f Hj Hf; simpl in Hf; [congruence|].
        apply (Hbefore j f); [lia|done].
      * intros Hq. by rewrite (Hall Hq).
      * intros Ht. destruct (Hthrew Ht) as (last & -> & f & Hf & Hm).
        exists (S last). split; [done|]. by exists f.
    + exists 1%nat. repeat split; try done; try lia.
      intros _. exists 0%nat. split; [done|]. by exists func.
Qed.

(** X12: what a [broadcast] that buffers a message does, in order. It
    pushes the message. It calls the filters in the order they were
    registered and stops at the first that answers true: every filter
    called before the last one answered false, the last one called is the
    one that answered true when some filter matches, and all are called
    when none matches. Only if one matched and the stored mute-until time
    is not after the current time it emits, calling the listeners in the
    order they were registered, each once: no listener called before the
    last one threw, and either no listener throws at all, all are called
    and the call fulfils, or the last one called throws, the listeners
    after it are not called and the call rejects. Otherwise nothing is
    emitted and the call fulfils. With no filter registered nothing is ever
    emitted. *)
Theorem broadcast_call_order (now : Z) (session : Session.t)
    (c : MessageCollector) :
  let groupId := Session.guildId session in
  let content :=
    mapElementToString session (Session.content session)
      (incomingElements session) in
  let message := incomingMessage session content in
  let open := someFilterMatches c session message
              ∧ muteUntil groupId c ≤ now in
  Session.isDirect session = false →
  0 ≤ Config.maxMessages (_config c) →
  lockFlag groupId c = false →
  content ≠ [] →
  ∃ c' task asked told dispatch,
    call 2 now (broadcast session) c
    = Some (c',
            Pushed groupId message
            :: map (λ j, FilterCalled j session message) (seq 0 asked)
            ++ dispatch,
            task)
    ∧ buffer groupId c'
      = suffix (Z.to_nat (Config.maxMessages (_config c)))
          (buffer groupId c ++ [message])
    ∧ (asked ≤ length (_filters c))%nat
    ∧ (∀ j func, (S j < asked)%nat → _filters c !! j = Some func →
         func session message = false)
    ∧ (someFilterMatches c session message →
       ∃ last func, asked = S last ∧ _filters c !! last = Some func
                    ∧ func session message = true)
    ∧ (¬ someFilterMatches c session message → asked = length (_filters c))
    ∧ (¬ open → dispatch = [] ∧ task = Fulfilled None)
    ∧ (open →
       dispatch
       = Emitted session (buffer groupId c')
         :: map (λ j, ListenerCalled j session (buffer groupId c')) (seq 0 told)
       ∧ (∀ j func, (S j < told)%nat → _eventEmitter c !! j = Some func →
            func session (buffer groupId c') ≠ ThrowsError)
       ∧ (((∀ func, func ∈ _eventEmitter c →
              func session (buffer groupId c') ≠ ThrowsError)
           ∧ told = length (_eventEmitter c) ∧ task = Fulfilled None)
          ∨ (∃ last func, told = S last ∧ _eventEmitter c !! last = Some func
                          ∧ func session (buffer groupId c') = ThrowsError
                          ∧ task = Rejected)))
    ∧ (_filters c = [] → dispatch = []).
Proof.
  intros groupId content message open Hgroup Hcap Hfree Hcontent.
  pose proof (broadcast_call now session c Hgroup Hfree Hcap Hcontent) as Hcall.
  cbv zeta in Hcall. fold groupId content message in Hcall.
  set (groupArray := suffix _ _) in *.
  destruct (some_from_order (_filters c) session message 0)
    as (asked & Hcalls & Hasked & Hbefore & Hmatch & Hnone).
  destruct (emit_from_order (_eventEmitter c) session groupArray 0)
    as (told & Hdel & Hquiet & Hall & Hthrew).
  fold (some (_filters c) session message) in Hcalls, Hmatch, Hnone.
  assert (fst (some (_filters c) session message) = true
          ↔ someFilterMatches c session message) as Hsome
    by apply some_from_true.
  assert (snd (emit (_eventEmitter c) session groupArray)
          = Emitted session groupArray
            :: map (λ j, ListenerCalled j session groupArray) (seq 0 told)
          ∧ fst (emit (_eventEmitter c) session groupArray)
            = fst (emit_from 0 (_eventEmitter c) session groupArray))
    as [Hemit Hfst].
  { unfold emit. destruct (emit_from 0 _ _ _). simpl in *. by rewrite Hdel. }
  pose proof (emit_threw (_eventEmitter c) session groupArray) as Hthrower.
  rewrite Hfst in Hthrower.
  rewrite Hcalls, Hemit, Hfst in Hcall.
  assert (open ↔ fst (some (_filters c) session message) = true
                 ∧ (muteUntil groupId c >? now) = false) as Hopen.
  { unfold open. by rewrite Hsome, Z.gtb_ltb, Z.ltb_ge. }
  assert (∀ b, buffer groupId (withBuffer groupId groupArray
                                 (withLock groupId b c)) = groupArray) as Hbuf
    by (intros b; apply buffer_withBuffer).
  assert (someFilterMatches c session message →
          ∃ last func, asked = S last ∧ _filters c !! last = Some func
                       ∧ func session message = true) as Hm.
  { intros H. apply Hsome in H.
    destruct (Hmatch H) as (last & -> & func & Hl & Ht). by exists last, func. }
  assert (¬ someFilterMatches c session message → asked = length (_filters c))
    as Hn.
  { intros H. apply Hnone. apply not_true_is_false. by rewrite Hsome. }
  assert (_filters c = [] → fst (some (_filters c) session message) = false)
    as Hempty by (by intros ->).
  destruct (fst (some (_filters c) session message)) eqn:Ematched;
    [destruct (muteUntil groupId c >? now) eqn:Emute|]; cbn [andb negb] in Hcall.
  - eexists _, _, asked, 0%nat, []. rewrite app_nil_r.
    split; [exact Hcall|]. rewrite Hbuf.
    split; [done|]. split; [done|]. split; [done|]. split; [done|].
    split; [done|]. split; [done|]. split; [|done].
    intros Ho. apply Hopen in Ho as [_ Ho]. done.
  - destruct (fst (emit_from 0 (_eventEmitter c) session groupArray)) eqn:Et.
    + eexists _, _, asked, told, _. split; [exact Hcall|]. rewrite Hbuf.
      split; [done|]. split; [done|]. split; [done|]. split; [done|].
      split; [done|].
      split; [intros Ho; destruct Ho; by apply Hopen|].
      split; [|intros H; by specialize (Hempty H)].
      intros _. split; [done|]. split; [done|]. right.
      destruct (Hthrew eq_refl) as (last & -> & func & Hl & Ht).
      by exists last, func.
    + eexists _, _, asked, told, _. split; [exact Hcall|]. rewrite Hbuf.
      split; [done|]. split; [done|]. split; [done|]. split; [done|].
      split; [done|].
      split; [intros Ho; destruct Ho; by apply Hopen|].
      split; [|intros H; by specialize (Hempty H)].
      intros _. split; [done|]. split; [done|]. left.
      split; [|split; [by apply Hall|done]].
      intros func Hin Ht.
      assert (false = true) as Habs by (apply Hthrower; by exists func).
      done.
  - eexists _, _, asked, 0%nat, []. rewrite app_nil_r.
    split; [exact Hcall|]. rewrite Hbuf.
    split; [done|]. split; [done|]. split; [done|]. split; [done|].
    split; [done|]. split; [done|]. split; [|done].
    intros Ho. apply Hopen in Ho as [Ho _]. done.
Qed.

Lemma broadcast_call_order_witness :
  let c := collect listening (watched throwing 10) in
  let message := incomingMessage hello (lit "hello") in
  ∃ c',
    call 2 0 (broadcast hello) c
    = Some (c',
            [Pushed (lit "g1") message; FilterCalled 0 hello message;
             Emitted hello [message]; ListenerCalled 0 hello [message]],
            Rejected).
Proof.
  intros c message.
  destruct (broadcast_call_order 0 hello c)
    as (c' & task & asked & told & dispatch & Hcall & Hbuf & Hasked & _
        & Hmatch & _ & _ & Hopen & _).
  - reflexivity.
  - simpl. lia.
  - reflexivity.
  - vm_compute. congruence.
  - assert (someFilterMatches c hello
              (incomingMessage hello
                 (mapElementToString hello (Session.content hello)
                    (incomingElements hello)))) as Hsome.
    { exists always. split; [|done]. by apply list_elem_of_singleton. }
    destruct (Hmatch Hsome) as (last & func & -> & _).
    destruct last as [|last]; [|simpl in Hasked; lia].
    destruct Hopen as (-> & _ & [(Hquiet & _)|(last & func' & -> & Hl & Ht & ->)]).
    + split; [done|].
      replace (muteUntil (Session.guildId hello) c) with 0 by reflexivity. lia.
    + destruct (Hquiet throwing); [|done].
      apply list_elem_of_here.
    + exists c'. rewrite Hbuf in Hcall.
      destruct last as [|[|last]]; [exact Hcall|simpl in Hl|simpl in Hl; done].
      injection Hl as <-. done.
Defined.

(** ** One holder per group *)

Lemma sameFlags_refl (c : MessageCollector) : sameFlags c c.
Proof. by intros groupId. Qed.

Lemma sameFlags_trans (c1 c2 c3 : MessageCollector) :
  sameFlags c1 c2 → sameFlags c2 c3 → sameFlags c1 c3.
Proof.
  intros H12 H23 groupId.
  destruct (H12 groupId) as [Hf Hr]. destruct (H23 groupId) as [Hf' Hr'].
  split; [congruence|auto].
Qed.

Lemma sameFlags_locks (c c' : MessageCollector) :
  _groupLocks c' = _groupLocks c → sameFlags c c'.
Proof. intros H groupId. unfold lockFlag. by rewrite H. Qed.

Lemma sameFlags_withLock (groupId : jsstring) (c : MessageCollector) :
  sameFlags c (withLock groupId (lockFlag groupId c) c).
Proof.
  intros g. destruct (decide (g = groupId)) as [->|Hne].
  - split; [apply lockFlag_withLock|]. intros _. simpl.
    by rewrite lookup_insert_eq.
  - unfold lockFlag at 1. simpl. rewrite lookup_insert_ne by done. done.
Qed.

Lemma sameFlags_mute (session : Session.t) (time now1 now2 : Z)
    (c : MessageCollector) :
  sameFlags c (mute session time now1 now2 c).
Proof.
  intros g. destruct (decide (g = Session.guildId session)) as [->|Hne].
  - split; [apply lockFlag_mute|]. intros _. rewrite mute_eq. simpl.
    by rewrite lookup_insert_eq.
  - rewrite mute_eq. unfold lockFlag at 1. simpl.
    rewrite lookup_insert_ne by done. done.
Qed.

(** Setting the flag of a group whose record exists. *)
Lemma setLockFlag_flags (groupId : jsstring) (b : bool) (c : MessageCollector) :
  _groupLocks c !! groupId ≠ None →
  lockFlag groupId (setLockFlag groupId b c) = b
  ∧ (∀ other, other ≠ groupId →
       lockFlag other (setLockFlag groupId b c) = lockFlag other c)
  ∧ ∀ g, _groupLocks c !! g ≠ None →
         _groupLocks (setLockFlag groupId b c) !! g ≠ None.
Proof.
  intros Hrecord. unfold lockFlag, setLockFlag. simpl. split; [|split].
  - rewrite lookup_alter_eq. by destruct (_groupLocks c !! groupId).
  - intros other Hother. by rewrite lookup_alter_ne.
  - intros g Hg. rewrite lookup_alter. case_decide; [subst|done].
    by destruct (_groupLocks c !! g).
Qed.

Lemma broadcast_section_critical (session : Session.t) :
  critical (Session.guildId session) (broadcast_section session).
Proof.
  intros now c. unfold broadcast_section.
  set (content := mapElementToString _ _ _).
  set (message := incomingMessage session content).
  assert (∃ r, Await_unlock session (Return None)
               = Await_unlock session (Return r)) as Hk by (by exists None).
  destruct (length content <? 1)%nat.
  { split; [apply sameFlags_refl|]. split; [constructor|]. by exists session, None. }
  destruct (evict _ _) as [groupArray|]; [|done].
  set (appended := set_messages _ c).
  assert (sameFlags c appended) as Ha by (by apply sameFlags_locks).
  pose proof (some_from_calls (_filters appended) session message 0) as Hcalls.
  fold (some (_filters appended) session message) in Hcalls.
  destruct (some (_filters appended) session message) as [matched calls].
  simpl in Hcalls.
  assert (∀ rest,
            (∀ e, e ∈ rest → ∀ g m, e ≠ Pushed g m) →
            Forall (λ e, ∀ g m, e = Pushed g m → g = Session.guildId session)
              (Pushed (Session.guildId session) message :: calls ++ rest))
    as Hown.
  { intros rest Hrest. constructor; [by intros g m [= -> _]|].
    apply Forall_app. split; apply Forall_forall; intros e He g m ->.
    - by destruct (Hcalls _ He).
    - by destruct (Hrest _ He g m). }
  specialize (Hown []) as Hown0. rewrite app_nil_r in Hown0.
  destruct matched.
  - rewrite isMute_eq.
    set (c' := withLock _ _ appended).
    assert (sameFlags c c') as Hc'
      by (eapply sameFlags_trans; [exact Ha|apply sameFlags_withLock]).
    destruct (negb _).
    + pose proof (emit_from_deliveries (_eventEmitter c') session groupArray 0)
        as Hdel.
      unfold emit.
      destruct (emit_from 0 (_eventEmitter c') session groupArray)
        as [threw deliveries]. simpl in Hdel.
      assert (∀ e, e ∈ Emitted session groupArray :: deliveries →
                   ∀ g m, e ≠ Pushed g m) as Hrest.
      { intros e He g m ->. apply elem_of_cons in He as [He|He]; [done|].
        by destruct (Hdel _ He). }
      destruct threw.
      * split; [done|]. by apply Hown.
      * split; [done|]. split; [by apply Hown|]. by exists session, None.
    + split; [done|]. split; [apply Hown0; by intros e He; apply elem_of_nil in He|].
      by exists session, None.
  - split; [done|]. split; [apply Hown0; by intros e He; apply elem_of_nil in He|].
    by exists session, None.
Qed.

Lemma broadcastOnBot_section_critical (session : Session.t)
    (elements : list h.t) :
  critical (Session.guildId session) (broadcastOnBot_section session elements).
Proof.
  intros now c. unfold broadcastOnBot_section.
  destruct (length _ <? 1)%nat.
  { split; [apply sameFlags_refl|]. split; [constructor|]. by exists session, None. }
  destruct (evict _ _) as [groupArray|]; [|done].
  split; [by apply sameFlags_locks|]. split; [|by exists session, None].
  constructor; [by intros g m [= -> _]|constructor].
Qed.

Lemma updateTemp_section_critical (session : Session.t) (temp : GroupTemp.t) :
  critical (Session.guildId session) (updateTemp_section session temp).
Proof.
  intros now c. unfold updateTemp_section.
  split; [by apply sameFlags_locks|]. split; [constructor|].
  by exists session, None.
Qed.

Lemma getTemp_section_critical (session : Session.t) :
  critical (Session.guildId session) (getTemp_section session).
Proof.
  intros now c. unfold getTemp_section.
  split; [by apply sameFlags_locks|]. split; [constructor|].
  by eexists session, _.
Qed.

Lemma critical_body (m : Method) :
  ∀ now c c' trace task,
    advance now (body m) c = Some (c', trace, task) →
    sameFlags c c' ∧ trace = [] ∧ disciplined c' task
    ∧ ∀ groupId k, task ≠ Polling_unlock groupId k.
Proof.
  assert (∀ now session section c c' trace task,
            critical (Session.guildId session) section →
            advance now (Await_lock session (Do section)) c
            = Some (c', trace, task) →
            sameFlags c c' ∧ trace = [] ∧ disciplined c' task
            ∧ ∀ groupId k, task ≠ Polling_unlock groupId k) as Hlock.
  { intros now session section c c' trace task Hcrit.
    rewrite advance_Await_lock. intros [= <- <- <-].
    split; [apply sameFlags_withLock|]. split; [done|]. split; [|done].
    split; [simpl; by rewrite lookup_insert_eq|]. by exists section. }
  assert (∀ now r c c' trace task,
            advance now (Return r) c = Some (c', trace, task) →
            sameFlags c c' ∧ trace = [] ∧ disciplined c' task
            ∧ ∀ groupId k, task ≠ Polling_unlock groupId k) as Hret.
  { intros now r c c' trace task [= <- <- <-].
    split; [apply sameFlags_refl|done]. }
  intros now c c' trace task.
  destruct m as [session|session elements|session temp|session]; cbn [body].
  - unfold broadcast. destruct (Session.isDirect session); [apply Hret|].
    apply Hlock, broadcast_section_critical.
  - unfold broadcastOnBot. destruct (Session.isDirect session); [apply Hret|].
    apply Hlock, broadcastOnBot_section_critical.
  - apply Hlock, updateTemp_section_critical.
  - apply Hlock, getTemp_section_critical.
Qed.

(** What the tick of a disciplined task does to the lock table: nothing; or
    it takes the free lock of its group, runs its section and is left
    waiting in [_unlock] (or rejected); or it gives the lock back. *)
Lemma poll_effect (now : Z) (task task' : Task) (c c' : MessageCollector)
    (trace : list Event) :
  disciplined c task →
  poll now task c = Some (c', trace, task') →
  (c' = c ∧ task' = task ∧ trace = [])
  ∨ (∃ groupId,
       ((∃ k, task = Polling_lock groupId k) ∧ lockFlag groupId c = false
        ∧ lockFlag groupId c' = true
        ∧ (task' = Rejected ∨ ∃ r, task' = Polling_unlock groupId (Return r))
        ∨ (∃ k, task = Polling_unlock groupId k) ∧ lockFlag groupId c' = false
          ∧ (∃ r, task' = Fulfilled r) ∧ trace = [])
       ∧ (∀ other, other ≠ groupId → lockFlag other c' = lockFlag other c)
       ∧ (∀ g, _groupLocks c !! g ≠ None → _groupLocks c' !! g ≠ None)
       ∧ Forall (λ e, ∀ g message, e = Pushed g message → g = groupId) trace).
Proof.
  intros Htask. destruct task as [groupId k|groupId k|r|]; simpl.
  - destruct Htask as (Hrecord & section & -> & Hcrit).
    destruct (lockFlag groupId c) eqn:Eflag; simpl;
      [intros [= <- <- <-]; by left|].
    destruct (setLockFlag_flags groupId true c Hrecord) as (Hset & Hothers & Hkeep).
    specialize (Hcrit now (setLockFlag groupId true c)).
    destruct (section now (setLockFlag groupId true c)) as [c1 tr k|c1 tr|];
      [| |done].
    + destruct Hcrit as (Hflags & Hown & session & r & -> & Hg).
      rewrite advance_Await_unlock, Hg. intros [= <- <- <-].
      right. exists groupId. rewrite app_nil_r.
      pose proof (sameFlags_trans _ _ _ Hflags (sameFlags_withLock groupId c1))
        as Hall.
      split; [|split; [|split; [|done]]].
      * left. split; [by eexists|]. split; [done|].
        split; [|right; by exists r].
        rewrite (proj1 (Hall groupId)). done.
      * intros other Hother. rewrite (proj1 (Hall other)). by apply Hothers.
      * intros g Hg'. apply (proj2 (Hall g)). by apply Hkeep.
    + destruct Hcrit as (Hflags & Hown). intros [= <- <- <-].
      right. exists groupId. split; [|split; [|split; [|done]]].
      * left. split; [by eexists|]. split; [done|]. split; [|by left].
        rewrite (proj1 (Hflags groupId)). done.
      * intros other Hother. rewrite (proj1 (Hflags other)). by apply Hothers.
      * intros g Hg'. apply (proj2 (Hflags g)). by apply Hkeep.
  - destruct Htask as (Hheld & r & ->). rewrite Hheld. simpl.
    intros [= <- <- <-].
    assert (_groupLocks c !! groupId ≠ None) as Hrecord
      by (by apply lockFlag_true_record).
    destruct (setLockFlag_flags groupId false c Hrecord)
      as (Hset & Hothers & Hkeep).
    right. exists groupId. split; [|split; [done|split; [done|constructor]]].
    right. split; [by eexists|]. split; [done|]. split; [by exists r|done].
  - intros [= <- <- <-]. by left.
  - intros [= <- <- <-]. by left.
Qed.

Lemma disciplined_other (groupId : jsstring) (c c' : MessageCollector)
    (task : Task) :
  (∀ other, other ≠ groupId → lockFlag other c' = lockFlag other c) →
  (∀ g, _groupLocks c !! g ≠ None → _groupLocks c' !! g ≠ None) →
  (∀ k, task ≠ Polling_unlock groupId k) →
  disciplined c task → disciplined c' task.
Proof.
  intros Hothers Hkeep Hnot. destruct task as [g k|g k|r|]; simpl; try done.
  - intros [Hrecord Hk]. split; [by apply Hkeep|done].
  - intros [Hheld Hk]. split; [|done].
    rewrite Hothers; [done|]. intros ->. by apply (Hnot k).
Qed.

Lemma disciplined_sameFlags (c c' : MessageCollector) (task : Task) :
  sameFlags c c' → disciplined c task → disciplined c' task.
Proof.
  intros Hsame. destruct task as [g k|g k|r|]; simpl; try done.
  - intros [Hrecord Hk]. split; [by apply (Hsame g)|done].
  - intros [Hheld Hk]. split; [|done]. by rewrite (proj1 (Hsame g)).
Qed.

Lemma appended_app (groupId : jsstring) (log trace : list Event) :
  appended groupId (log ++ trace) = appended groupId log ++ appended groupId trace.
Proof. unfold appended. apply omap_app. Qed.

Lemma appended_foreign (groupId other : jsstring) (trace : list Event) :
  other ≠ groupId →
  Forall (λ e, ∀ g message, e = Pushed g message → g = other) trace →
  appended groupId trace = [].
Proof.
  intros Hne. induction 1 as [|e trace He _ IH]; [done|].
  change (e :: trace) with ([e] ++ trace). rewrite appended_app, IH, app_nil_r.
  destruct e as [g m| | | |]; try done.
  unfold appended. simpl.
  rewrite decide_False; [done|]. rewrite (He g m eq_refl). done.
Qed.

Lemma lookup_snoc_waiting (tasks : list Task) (task : Task) (i : nat)
    (groupId : jsstring) (k : Async) :
  (∀ g k', task ≠ Polling_unlock g k') →
  (tasks ++ [task]) !! i = Some (Polling_unlock groupId k) →
  tasks !! i = Some (Polling_unlock groupId k).
Proof.
  intros Hnot H. apply lookup_app_Some in H as [H|[_ H]]; [done|].
  destruct (i - length tasks)%nat; simpl in H; [|done].
  injection H as H. by destruct (Hnot groupId k).
Qed.

(** A step that changes no flag keeps the discipline, and a stuck lock
    stuck. *)
Lemma exclusive_sameFlags (p : Process) (c' : MessageCollector)
    (log : list Event) :
  sameFlags (collector p) c' →
  exclusive p →
  exclusive (mkProcess c' (tasks p) log)
  ∧ ∀ groupId, stuck groupId p → stuck groupId (mkProcess c' (tasks p) log).
Proof.
  intros Hsame [Hd Hu]. split; [split|].
  - eapply Forall_impl; [exact Hd|]. intros task. by apply disciplined_sameFlags.
  - exact Hu.
  - intros groupId [Hflag Hnone]. split; [|done]. simpl.
    by rewrite (proj1 (Hsame groupId)).
Qed.

Lemma step_locks (a : Action) (p p' : Process) :
  exclusive p → step a p = Some p' →
  exclusive p'
  ∧ ∀ groupId, stuck groupId p →
      stuck groupId p'
      ∧ appended groupId (events p') = appended groupId (events p).
Proof.
  intros Hex. pose proof Hex as [Hd Hu].
  destruct a as [m now|i now|session time now1 now2|session now|groupId
                 |filter|func]; simpl.
  - destruct (advance now (body m) (collector p)) as [[[c' trace] task]|] eqn:E;
      [|done]. intros [= <-].
    destruct (critical_body m now _ _ _ _ E) as (Hsame & -> & Htask & Hnot).
    split; [split|].
    + simpl. apply Forall_app. split; [|by constructor].
      eapply Forall_impl; [exact Hd|]. intros t. by apply disciplined_sameFlags.
    + simpl. intros i j g k k' Hi Hj.
      apply lookup_snoc_waiting in Hi; [|done].
      apply lookup_snoc_waiting in Hj; [|done]. by apply (Hu i j g k k').
    + intros g [Hflag Hnone]. simpl. rewrite app_nil_r. split; [|done].
      split; [simpl; by rewrite (proj1 (Hsame g))|].
      simpl. intros i k Hi. apply lookup_snoc_waiting in Hi; [|done].
      by apply (Hnone i k).
  - destruct (tasks p !! i) as [task|] eqn:Ei; [|intros [= <-]; by split].
    destruct (poll now task (collector p)) as [[[c' trace] task']|] eqn:E;
      [|done]. intros [= <-].
    assert (disciplined (collector p) task) as Htask
      by (eapply Forall_lookup_1; [exact Hd|exact Ei]).
    destruct (poll_effect now task task' _ _ _ Htask E)
      as [(-> & -> & ->)|(g0 & Hcase & Hothers & Hkeep & Hown)].
    { rewrite list_insert_id, app_nil_r by done.
      destruct p as [c ts ev]. by split. }
    assert (∀ j t, j ≠ i → tasks p !! j = Some t →
              ∀ k, t ≠ Polling_unlock g0 k) as Hfree.
    { intros j t Hj Ht k ->.
      destruct Hcase as [((k0 & ->) & Hfalse & _)|((k0 & ->) & _)].
      - assert (disciplined (collector p) (Polling_unlock g0 k)) as [Hheld _]
          by (eapply Forall_lookup_1; [exact Hd|exact Ht]). congruence.
      - by apply Hj, (Hu j i g0 k k0). }
    assert (disciplined c' task' ∧ ∀ g k, task' = Polling_unlock g k → g = g0)
      as [Htask' Hg0].
    { destruct Hcase as [(_ & _ & Hset & [->|(r & ->)])|(_ & _ & (r & ->) & _)];
        try done.
      split; [split; [done|by exists r]|]. by intros g k [= -> _]. }
    assert (∀ j t, (<[i:=task']> (tasks p)) !! j = Some t →
              (j = i ∧ t = task') ∨ (j ≠ i ∧ tasks p !! j = Some t)) as Hnew.
    { intros j t Hj. apply list_lookup_insert_Some in Hj
        as [(-> & -> & _)|[Hne Hj]]; [by left|right; by split]. }
    split; [split|].
    + simpl. apply Forall_lookup_2. intros j t Hj.
      destruct (Hnew j t Hj) as [[-> ->]|[Hne Hold]]; [done|].
      apply (disciplined_other g0 (collector p)); try done.
      * by apply (Hfree j t).
      * eapply Forall_lookup_1; [exact Hd|exact Hold].
    + simpl. intros a b g k k' Ha Hb.
      destruct (Hnew a _ Ha) as [[-> Ea]|[Hna Holda]];
        destruct (Hnew b _ Hb) as [[-> Eb]|[Hnb Holdb]]; try done.
      * symmetry in Ea. apply Hg0 in Ea as ->.
        by destruct (Hfree b _ Hnb Holdb k').
      * symmetry in Eb. apply Hg0 in Eb as ->.
        by destruct (Hfree a _ Hna Holda k).
      * by apply (Hu a b g k k').
    + intros g [Hflag Hnone]. simpl.
      assert (g ≠ g0) as Hne.
      { intros ->.
        destruct Hcase as [(_ & Hfalse & _)|((k0 & ->) & _)]; [congruence|].
        by apply (Hnone i k0). }
      split; [split|].
      * simpl. by rewrite Hothers.
      * simpl. intros j k Hj.
        destruct (Hnew j _ Hj) as [[-> Ej]|[Hnj Holdj]].
        -- symmetry in Ej. by apply Hg0 in Ej.
        -- by apply (Hnone j k).
      * simpl. rewrite appended_app.
        rewrite (appended_foreign g g0 trace (λ H, Hne (eq_sym H)) Hown).
        by rewrite app_nil_r.
  - intros [= <-].
    destruct (exclusive_sameFlags p (mute session time now1 now2 (collector p))
                (events p) (sameFlags_mute _ _ _ _ _) Hex) as [H1 H2].
    split; [done|]. intros g Hg. by split; [apply H2|].
  - intros [= <-]. rewrite isMute_eq. cbn [snd].
    destruct (exclusive_sameFlags p _ (events p)
                (sameFlags_withLock (Session.guildId session) (collector p)) Hex)
      as [H1 H2].
    split; [done|]. intros g Hg. by split; [apply H2|].
  - intros [= <-].
    destruct (exclusive_sameFlags p (clear groupId (collector p))
                (events p ++ [Cleared groupId])) as [H1 H2]; [|done|].
    { apply sameFlags_locks. by destruct groupId as [[|]|]. }
    split; [done|]. intros g Hg. split; [by apply H2|].
    simpl. rewrite appended_app. simpl. by rewrite app_nil_r.
  - intros [= <-].
    destruct (exclusive_sameFlags p (addFilter filter (collector p)) (events p))
      as [H1 H2]; [by apply sameFlags_locks|done|].
    split; [done|]. intros g Hg. by split; [apply H2|].
  - intros [= <-].
    destruct (exclusive_sameFlags p (collect func (collector p)) (events p))
      as [H1 H2]; [by apply sameFlags_locks|done|].
    split; [done|]. intros g Hg. by split; [apply H2|].
Qed.

Lemma run_locks (schedule : list Action) :
  ∀ p p', exclusive p → run schedule p = Some p' →
    exclusive p'
    ∧ ∀ groupId, stuck groupId p →
        stuck groupId p'
        ∧ appended groupId (events p') = appended groupId (events p).
Proof.
  induction schedule as [|a schedule IH]; intros p p' Hex; simpl.
  - intros [= <-]. by split.
  - destruct (step a p) as [p1|] eqn:E; [|done]. intros Hrun.
    destruct (step_locks a p p1 Hex E) as [Hex1 Hstuck1].
    destruct (IH p1 p' Hex1 Hrun) as [Hex' Hstuck'].
    split; [done|]. intros g Hg.
    destruct (Hstuck1 g Hg) as [Hg1 Ha1].
    destruct (Hstuck' g Hg1) as [Hg' Ha']. split; [done|congruence].
Qed.

Lemma boot_exclusive (config : Config.t) : exclusive (boot config).
Proof. split; [constructor|]. by intros i j g k k' Hi. Qed.

(** X13: mutual exclusion. However the calls are started and their timers
    fire, no two calls are ever at the same time between their [_lock] and
    their [_unlock] for the same group; and while a call is there, the flag
    of its group is set. *)
Theorem one_holder_per_group (config : Config.t) (schedule : list Action)
    (p : Process) (i j : nat) (groupId : jsstring) (k k' : Async) :
  run schedule (boot config) = Some p →
  tasks p !! i = Some (Polling_unlock groupId k) →
  tasks p !! j = Some (Polling_unlock groupId k') →
  i = j ∧ lockFlag groupId (collector p) = true.
Proof.
  intros Hrun Hi Hj.
  destruct (run_locks schedule (boot config) p (boot_exclusive config) Hrun)
    as [[Hd Hu] _].
  split; [by apply (Hu i j groupId k k')|].
  by destruct (Forall_lookup_1 _ _ _ _ Hd Hi).
Qed.

Lemma one_holder_per_group_witness :
  ∃ p,
    run [Invoke (BroadcastOnBot hello [h.text (lit "hi")]) 0; Fire 0 1]
      (boot (Config.mk 10)) = Some p
    ∧ tasks p !! 0%nat = Some (Polling_unlock (lit "g1") (Return None))
    ∧ lockFlag (lit "g1") (collector p) = true.
Proof.
  eexists. split; [reflexivity|]. split; [reflexivity|].
  eapply (one_holder_per_group (Config.mk 10)
            [Invoke (BroadcastOnBot hello [h.text (lit "hi")]) 0; Fire 0 1]
            _ 0 0 (lit "g1")).
  - reflexivity.
  - reflexivity.
  - reflexivity.
Defined.

(** X14: a lock nobody is left to release stays locked. When the flag of a
    group is set and no call is waiting in [_unlock] for it (a [broadcast]
    that rejected because a listener threw leaves the group so), then
    whatever happens next the flag stays set, and nothing is ever appended
    for the group again: every later [broadcast], [broadcastOnBot],
    [getTemp] and [updateTemp] for it waits in [_lock] for good. *)
Theorem stuck_lock_stays (config : Config.t) (before after : list Action)
    (p p' : Process) (groupId : jsstring) :
  run before (boot config) = Some p →
  stuck groupId p →
  run after p = Some p' →
  stuck groupId p'
  ∧ appended groupId (events p') = appended groupId (events p).
Proof.
  intros Hbefore Hstuck Hafter.
  destruct (run_locks before (boot config) p (boot_exclusive config) Hbefore)
    as [Hex _].
  destruct (run_locks after p p' Hex Hafter) as [_ H]. by apply H.
Qed.

Lemma stuck_lock_stays_witness :
  ∃ p p',
    run [CallAddFilter always; CallCollect throwing;
         Invoke (Broadcast hello) 0; Fire 0 1]
      (boot (Config.mk 10)) = Some p
    ∧ tasks p = [Rejected]
    ∧ run [Invoke (BroadcastOnBot hello [h.text (lit "hi")]) 2; Fire 1 3;
           Fire 0 3; Fire 1 4]
        p = Some p'
    ∧ stuck (lit "g1") p'
    ∧ appended (lit "g1") (events p') = appended (lit "g1") (events p).
Proof.
  eexists _, _. split; [reflexivity|]. split; [reflexivity|].
  split; [reflexivity|].
  eapply (stuck_lock_stays (Config.mk 10)
    [CallAddFilter always; CallCollect throwing;
     Invoke (Broadcast hello) 0; Fire 0 1]
    [Invoke (BroadcastOnBot hello [h.text (lit "hi")]) 2; Fire 1 3;
     Fire 0 3; Fire 1 4]).
  - reflexivity.
  - split; [reflexivity|]. intros [|[|i]] k; simpl; discriminate.
  - reflexivity.
Defined.

(** ** Two calls at once *)







(** ** Muting and broadcasting together *)

(** X16: mute a group for [d] at time [t0] (it was not muted then), and let
    a message that some filter matches arrive at time [t]. The message is
    buffered whenever it arrives; the listeners are told only if it arrives
    at [t0 + d] or later: at [t0 + d] sharp the window is over. *)
Theorem mute_then_broadcast (session : Session.t) (d t0 t : Z)
    (c : MessageCollector) :
  let groupId := Session.guildId session in
  let content :=
    mapElementToString session (Session.content session)
      (incomingElements session) in
  let message := incomingMessage session content in
  Session.isDirect session = false →
  0 ≤ Config.maxMessages (_config c) →
  lockFlag groupId c = false →
  content ≠ [] →
  someFilterMatches c session message →
  fst (isMute session t0 c) = false →
  ∃ c' trace task,
    call 2 t (broadcast session) (mute session d t0 t0 c)
    = Some (c', trace, task)
    ∧ buffer groupId c'
      = suffix (Z.to_nat (Config.maxMessages (_config c)))
          (buffer groupId c ++ [message])
    ∧ (Emitted session (buffer groupId c') ∈ trace ↔ t0 + d ≤ t)
    ∧ (t < t0 + d → ∀ k s b, ListenerCalled k s b ∉ trace).
Proof.
  intros groupId content message Hgroup Hcap Hfree Hcontent Hmatch Hunmuted.
  set (muted := mute session d t0 t0 c).
  assert (lockFlag groupId muted = false) as Hfree'
    by (rewrite <- Hfree; apply lockFlag_mute).
  assert (_config muted = _config c ∧ _filters muted = _filters c
          ∧ _eventEmitter muted = _eventEmitter c
          ∧ buffer groupId muted = buffer groupId c) as (Hcfg & Hf & He & Hb)
    by (unfold muted; by rewrite mute_eq).
  assert (muteUntil groupId muted = t0 + d) as Hend.
  { pose proof (muteUntil_mute session d t0 t0 c) as Hm.
    fold groupId muted in Hm. rewrite Hm.
    rewrite isMute_fst, Z.gtb_ltb in Hunmuted. fold groupId in Hunmuted.
    apply Z.ltb_ge in Hunmuted.
    destruct (Z.ltb_spec (muteUntil groupId c) t0); lia. }
  assert (0 ≤ Config.maxMessages (_config muted)) as Hcap' by (by rewrite Hcfg).
  pose proof (broadcast_call t session muted Hgroup Hfree' Hcap' Hcontent)
    as Hcall.
  cbv zeta in Hcall. fold groupId content message in Hcall.
  rewrite Hcfg, Hf, He, Hb, Hend in Hcall.
  set (groupArray := suffix _ _) in *.
  assert (fst (some (_filters c) session message) = true) as Hmatched
    by (by apply some_from_true).
  rewrite Hmatched in Hcall. cbn [andb] in Hcall.
  assert (∀ e, e ∈ Pushed groupId message
                   :: snd (some (_filters c) session message) →
            (∀ s b, e ≠ Emitted s b) ∧ ∀ k s b, e ≠ ListenerCalled k s b)
    as Hquiet.
  { intros e He'. apply elem_of_cons in He' as [->|He']; [done|].
    by apply some_from_calls in He' as [j ->]. }
  destruct (Z.gtb_spec (t0 + d) t) as [Hlt|Hge]; cbn [negb] in Hcall.
  - eexists _, _, _. split; [exact Hcall|]. rewrite buffer_withBuffer.
    split; [done|]. split.
    + split; [|lia]. intros Hin. by destruct (proj1 (Hquiet _ Hin) session groupArray).
    + intros _ k s b Hin. by destruct (proj2 (Hquiet _ Hin) k s b).
  - assert (∃ c' task,
      call 2 t (broadcast session) muted
      = Some (c', Pushed groupId message
                  :: snd (some (_filters c) session message)
                     ++ snd (emit (_eventEmitter c) session groupArray), task)
      ∧ buffer groupId c' = groupArray) as (c' & task & Hc & Hbuf).
    { destruct (fst (emit (_eventEmitter c) session groupArray));
        eexists _, _; (split; [exact Hcall|]); apply buffer_withBuffer. }
    eexists c', _, task. split; [exact Hc|]. rewrite Hbuf.
    split; [done|]. split; [|lia].
    split; [lia|]. intros _. right. apply elem_of_app. right.
    apply emitted_in_emit.
Qed.

Lemma mute_then_broadcast_witness :
  ∃ c' trace task,
    call 2 1005 (broadcast hello) (mute hello 1000 5 5 (watched listening 10))
    = Some (c', trace, task)
    ∧ (Emitted hello (buffer (lit "g1") c') ∈ trace ↔ 5 + 1000 ≤ 1005).
Proof.
  destruct (mute_then_broadcast hello 1000 5 1005 (watched listening 10))
    as (c' & trace & task & Hcall & _ & Hiff & _).
  - reflexivity.
  - simpl. lia.
  - reflexivity.
  - vm_compute. congruence.
  - exists always. split; [left|reflexivity].
  - reflexivity.
  - by exists c', trace, task.
Defined.

(** ** Reading while the lock is held *)

(** X17: [getMessages] takes no lock and reads the table as it is. Once the
    section of a [broadcast] has run (one tick after the call), and before
    the lock is given back, the flag of the group is still set and
    [getMessages] already shows the buffer with the new message in it. *)
Theorem getMessages_sees_unreleased (now : Z) (session : Session.t)
    (c : MessageCollector) :
  let groupId := Session.guildId session in
  let content :=
    mapElementToString session (Session.content session)
      (incomingElements session) in
  let message := incomingMessage session content in
  Session.isDirect session = false →
  0 ≤ Config.maxMessages (_config c) →
  lockFlag groupId c = false →
  content ≠ [] →
  ∃ c' trace task,
    call 1 now (broadcast session) c = Some (c', trace, task)
    ∧ (task = Rejected ∨ task = Polling_unlock groupId (Return None))
    ∧ lockFlag groupId c' = true
    ∧ getMessages groupId c'
      = Some (suffix (Z.to_nat (Config.maxMessages (_config c)))
                (buffer groupId c ++ [message])).
Proof.
  intros groupId content message Hgroup Hcap Hfree Hcontent.
  pose proof (broadcast_section_eval now session c Hcap Hcontent) as Heval.
  cbv zeta in Heval. fold groupId content message in Heval.
  set (groupArray := suffix _ _) in *.
  set (held := withBuffer groupId groupArray (withLock groupId true c)) in *.
  assert (lockFlag groupId held = true) as Hheld
    by apply (lockFlag_withLock groupId true c).
  assert (getMessages groupId held = Some groupArray) as Hget
    by (unfold getMessages; simpl; by rewrite lookup_insert_eq).
  unfold broadcast. rewrite Hgroup.
  destruct (fst (some _ _ _) && negb _);
    [destruct (fst (emit _ _ _))|].
  - exists held. eexists _, _.
    split; [by apply (call_section_throws now session _ c held _ 0)|].
    split; [by left|done].
  - destruct (call_section_returns now session (broadcast_section session)
                c held _ None Hfree Heval Hheld) as [H1 _].
    eexists _, _, _. split; [exact H1|]. split; [by right|].
    split; [apply lockFlag_withLock|].
    unfold getMessages. simpl. by rewrite lookup_insert_eq.
  - destruct (call_section_returns now session (broadcast_section session)
                c held _ None Hfree Heval Hheld) as [H1 _].
    eexists _, _, _. split; [exact H1|]. split; [by right|].
    split; [apply lockFlag_withLock|].
    unfold getMessages. simpl. by rewrite lookup_insert_eq.
Qed.

Lemma getMessages_sees_unreleased_witness :
  ∃ c' trace task,
    call 1 0 (broadcast hello) (watched listening 10) = Some (c', trace, task)
    ∧ lockFlag (lit "g1") c' = true
    ∧ getMessages (lit "g1") c'
      = Some [incomingMessage hello (lit "hello")].
Proof.
  destruct (getMessages_sees_unreleased 0 hello (watched listening 10))
    as (c' & trace & task & Hcall & _ & Hflag & Hget).
  - reflexivity.
  - simpl. lia.
  - reflexivity.
  - vm_compute. congruence.
  - by exists c', trace, task.
Defined.

(** ** The buffer after a sequence of completed calls *)









